(** * Window functions of [notebooks/window]

    A shallow embedding of [window.py] (nineteen window generators built on
    numpy) and of [compare.py], followed by the properties the specification
    states about them.

    Data model.
    - A Python [int] is a [Z]; a numpy [int64] array is a [list Z].
    - A Python [float] and a numpy [float64] are IEEE-754 binary64 values:
      the primitive type [float], whose [+ - * /], [abs] and comparisons are
      the correctly rounded IEEE operations.
    - [np.sin], [np.cos], [np.exp] and the general power [x ** 3] come from the
      C mathematical library, which is not part of the repository and is not
      correctly rounded: they are parameters of the model
      ([Section Generators]); [RefLibm] gives one executable choice.
    - A call either returns or raises: [result].
    - Lengths and indices are within numpy's index type: where a property
      depends on the conversion of an index to a float, [N < 2^63] is stated. *)

From Stdlib Require Import String ZArith List Bool Lia Floats Uint63.
Import ListNotations.

#[local] Set Warnings "-inexact-float".
#[local] Open Scope Z_scope.

(** ** Python exceptions and the error monad *)

Module Py.

(** The exception classes the modelled code can raise. *)
Inductive exn : Type :=
| ValueError          (* numpy: negative dimensions; matplotlib: shape mismatch *)
| ZeroDivisionError   (* Python scalar division by zero *)
| IndexError          (* index out of bounds *)
| TypeError.          (* arithmetic on [None] *)

Inductive result (A : Type) : Type :=
| Ok (a : A)
| Raise (e : exn).
Arguments Ok {A} a.
Arguments Raise {A} e.

Definition bind {A B} (c : result A) (k : A -> result B) : result B :=
  match c with
  | Ok a => k a
  | Raise e => Raise e
  end.

End Py.
Export Py.

Declare Scope py_scope.
Delimit Scope py_scope with py.
Notation "x <- c ;; k" := (bind c (fun x => k))
  (at level 61, c at next level, right associativity) : py_scope.
#[local] Open Scope py_scope.

(** ** Floating-point scalars *)

Module Fl.
#[local] Open Scope float_scope.

(** [float(z)] for an [int64] value [z] ([|z| < 2^63]): exact below [2^53],
    rounded to nearest (ties to even) above. *)
Definition of_int (z : Z) : float :=
  if (z <? 0)%Z then - of_uint63 (Uint63.of_Z (- z)) else of_uint63 (Uint63.of_Z z).

(** [np.pi], the binary64 value nearest to pi. *)
Definition pi : float := 0x1.921fb54442d18p+1.

(** [x ** 2] on a float array: numpy evaluates it as [np.square], i.e. [x * x]. *)
Definition square (x : float) : float := x * x.

(** Python scalar division [x / y] of a float by an int or a float. *)
Definition pydiv (x y : float) : result float :=
  if y =? 0 then Raise ZeroDivisionError else Ok (x / y).

(** [numpy.isclose]-style absolute tolerance test used by the spec's
    "within tolerance 1e-9". *)
Definition close (tol x y : float) : bool := abs (x - y) <=? tol.

Fixpoint allclose (tol : float) (xs ys : list float) : bool :=
  match xs, ys with
  | [], [] => true
  | x :: xs', y :: ys' => close tol x y && allclose tol xs' ys'
  | _, _ => false
  end.

Definition finite (x : float) : bool := abs x <? infinity.

End Fl.

(** ** The numpy primitives the module uses *)

Module Np.
#[local] Open Scope float_scope.

(** [np.arange(N)]: the indices [0 .. N-1]; empty when [N <= 0]. *)
Definition arange (N : Z) : list Z :=
  map Z.of_nat (seq 0 (Z.to_nat N)).

(** [np.arange(N, dtype=float)]. *)
Definition arange_float (N : Z) : list float :=
  map Fl.of_int (arange N).

(** [np.ones(N)] and [np.zeros(N)]: numpy refuses a negative dimension. *)
Definition full (v : float) (N : Z) : result (list float) :=
  if (N <? 0)%Z then Raise ValueError else Ok (repeat v (Z.to_nat N)).

Definition ones : Z -> result (list float) := full 1.
Definition zeros : Z -> result (list float) := full 0.

(** [w[i] = v] with an integer index: negative indices count from the end,
    anything outside [-len(w) .. len(w)-1] raises [IndexError]. *)
Fixpoint set_nth (w : list float) (i : nat) (v : float) : list float :=
  match w, i with
  | [], _ => []
  | _ :: w', O => v :: w'
  | x :: w', S i' => x :: set_nth w' i' v
  end.

Definition setitem (w : list float) (i : Z) (v : float) : result (list float) :=
  let len := Z.of_nat (length w) in
  if (0 <=? i)%Z && (i <? len)%Z then Ok (set_nth w (Z.to_nat i) v)
  else if (- len <=? i)%Z && (i <? 0)%Z then Ok (set_nth w (Z.to_nat (len + i)) v)
  else Raise IndexError.

(** [w[mask] = v] with a boolean mask computed elementwise from a key array
    of the same length as [w]: positions where the mask holds are overwritten. *)
Fixpoint setmask (w : list float) (mask : list bool) (v : float) : list float :=
  match w, mask with
  | x :: w', b :: mask' => (if b then v else x) :: setmask w' mask' v
  | _, _ => w
  end.

(** [w[mask] = vals[mask]] where [vals] was computed elementwise over the
    whole key array: the selected positions receive the value computed at
    the same position. *)
Fixpoint setmask_values (w : list float) (mask : list bool) (vals : list float)
  : list float :=
  match w, mask, vals with
  | x :: w', b :: mask', v :: vals' =>
      (if b then v else x) :: setmask_values w' mask' vals'
  | _, _, _ => w
  end.

(** [a * b] for two arrays of the same length: the elementwise product. *)
Definition multiply (a b : list float) : list float :=
  map (fun p => fst p * snd p) (combine a b).

End Np.

(** ** [window.py] *)

Module Window.
#[local] Open Scope float_scope.
Import Fl Np.

(** [N - 1 if sym else N]: the length adjustment repeated in most generators. *)
Definition effective (N : Z) (sym : bool) : Z :=
  if sym then (N - 1)%Z else N.

(** [N - sym] with a Boolean [sym] ([True] counts as 1). *)
Definition minus_bool (N : Z) (sym : bool) : Z :=
  (N - (if sym then 1 else 0))%Z.

Section Generators.

(** The C library functions numpy calls elementwise. *)
Variable np_sin np_cos np_exp : float -> float.
(** [np.power(x, y)], used for [x ** 3]. *)
Variable np_power : float -> float -> float.

(** [boxcar(N, sym=True)] *)
Definition boxcar (N : Z) (sym : bool) : result (list float) :=
  ones N.

(** [bartlett(N, sym=False)]: [(2.0 / N)] is a Python scalar division. *)
Definition bartlett (N : Z) (sym : bool) : result (list float) :=
  let n := arange N in
  let N := effective N sym in
  scale <- pydiv 2 (of_int N) ;;
  Ok (map (fun k => scale * ((of_int N / 2) - abs (of_int k - of_int N / 2))) n).

(** [barthann(N, sym=False)] *)
Definition barthann (N : Z) (sym : bool) : result (list float) :=
  let n := arange N in
  let N := effective N sym in
  Ok (map (fun k =>
             0.62 - 0.48 * abs (of_int k / of_int N - 0.5)
             - 0.38 * np_cos (2 * pi * of_int k / of_int N)) n).

(** [parzen(N, sym=True)] *)
Definition parzen (N : Z) (sym : bool) : result (list float) :=
  let n := arange_float N in
  w <- zeros N ;;
  let n := map (fun x => 2 * x / of_int (minus_bool N sym) - 1) n in
  let w := setmask_values w (map (fun x => abs x <? 0.5) n)
             (map (fun x => 1 - 6 * square x + 6 * np_power (abs x) 3) n) in
  let w := setmask_values w (map (fun x => 0.5 <=? abs x) n)
             (map (fun x => 2 * np_power (1 - abs x) 3) n) in
  Ok w.

(** [welch(N, sym=False)] *)
Definition welch (N : Z) (sym : bool) : result (list float) :=
  let n := arange N in
  let center := of_int (minus_bool (N - 1) sym) / 2 in
  let radius := of_int (minus_bool (N + 1) sym) / 2 in
  Ok (map (fun k => 1 - square ((of_int k - center) / radius)) n).

(** [cosine(N, sym=False)]: [N + (not sym)]. *)
Definition cosine (N : Z) (sym : bool) : result (list float) :=
  let n := arange N in
  let N := (N + (if sym then 0 else 1))%Z in
  Ok (map (fun k => np_sin (pi * (of_int k + 0.5) / of_int N)) n).

(** [bohman(N, sym=False)] *)
Definition bohman (N : Z) (sym : bool) : result (list float) :=
  let n := arange N in
  let N := of_int (effective N sym) / 2 in
  Ok (map (fun k =>
             let x := abs (of_int k / N - 1) in
             (1 - x) * np_cos (pi * x) + (1 / pi) * np_sin (pi * x)) n).

(** [lanczos(N, sym=False)]: the sinc, then [w[N//2] = 1]. *)
Definition lanczos (N : Z) (sym : bool) : result (list float) :=
  let n := arange N in
  let N := effective N sym in
  let w := map (fun k => pi * (of_int (2 * k) / of_int N - 1)) n in
  let w := map (fun x => np_sin x / (x + 1e-12)) w in
  setitem w (N / 2)%Z 1.

(** [h * np.pi * n / N] for the literal [h] in [2, 4, 6, 8]: the argument
    of the cosine terms, evaluated left to right. *)
Definition harmonic (h : float) (k N : Z) : float :=
  h * pi * of_int k / of_int N.

(** [hann(N, sym=True)] *)
Definition hann (N : Z) (sym : bool) : result (list float) :=
  let n := arange N in
  let N := effective N sym in
  Ok (map (fun k => 0.50 - 0.50 * np_cos (harmonic 2 k N)) n).

(** [hamming(N, sym=False)] *)
Definition hamming (N : Z) (sym : bool) : result (list float) :=
  let n := arange N in
  let N := effective N sym in
  Ok (map (fun k => 0.54 - 0.46 * np_cos (harmonic 2 k N)) n).

(** [blackman(N, sym=False)] *)
Definition blackman (N : Z) (sym : bool) : result (list float) :=
  let n := arange N in
  let N := effective N sym in
  Ok (map (fun k =>
             0.42 - 0.50 * np_cos (harmonic 2 k N)
             + 0.08 * np_cos (harmonic 4 k N)) n).

(** [blackmanharris(N, sym=False)] *)
Definition blackmanharris (N : Z) (sym : bool) : result (list float) :=
  let n := arange N in
  let N := effective N sym in
  Ok (map (fun k =>
             0.35875
             - 0.48829 * np_cos (harmonic 2 k N)
             + 0.14128 * np_cos (harmonic 4 k N)
             - 0.01168 * np_cos (harmonic 6 k N)) n).

(** [blackmannuttall(N, sym=False)] *)
Definition blackmannuttall (N : Z) (sym : bool) : result (list float) :=
  let n := arange N in
  let N := effective N sym in
  Ok (map (fun k =>
             0.3635819
             - 0.4891775 * np_cos (harmonic 2 k N)
             + 0.1365995 * np_cos (harmonic 4 k N)
             - 0.0106411 * np_cos (harmonic 6 k N)) n).

(** [kaiserbessel(N, sym=None)]: [N - sym] is evaluated whatever [sym] is,
    and subtracting [None] from an int raises [TypeError]. *)
Definition kaiserbessel (N : Z) (sym : option bool) : result (list float) :=
  let n := arange N in
  match sym with
  | None => Raise TypeError
  | Some sym =>
      let N := minus_bool N sym in
      Ok (map (fun k =>
                 0.402
                 - 0.498 * np_cos (harmonic 2 k N)
                 + 0.098 * np_cos (harmonic 4 k N)
                 - 0.001 * np_cos (harmonic 6 k N)) n)
  end.

(** [flattop(N, sym=False)] *)
Definition flattop (N : Z) (sym : bool) : result (list float) :=
  let n := arange N in
  let N := effective N sym in
  Ok (map (fun k =>
             0.21557895
             - 0.416631580 * np_cos (harmonic 2 k N)
             + 0.277263158 * np_cos (harmonic 4 k N)
             - 0.083578947 * np_cos (harmonic 6 k N)
             + 0.006947368 * np_cos (harmonic 8 k N)) n).

(** [(N - 1 if sym else N) / 2]: the centre and radius of the parametric
    windows, a Python float. *)
Definition half_length (N : Z) (sym : bool) : float :=
  of_int (effective N sym) / 2.

(** [exponential(N, sym=False, alpha=1.0)] *)
Definition exponential (N : Z) (sym : bool) (alpha : float) : result (list float) :=
  let n := arange N in
  let N := half_length N sym in
  Ok (map (fun k => np_exp (- alpha * abs (of_int k - N) / N)) n).

(** [gaussian(N, sym=False, std=0.25)] *)
Definition gaussian (N : Z) (sym : bool) (std : float) : result (list float) :=
  let n := arange N in
  let N := half_length N sym in
  Ok (map (fun k => np_exp (-0.5 * square ((of_int k - N) / (std * N)))) n).

(** [hannpoisson(N, sym=False, alpha=1.0)] *)
Definition hannpoisson (N : Z) (sym : bool) (alpha : float) : result (list float) :=
  let n := arange N in
  let N := half_length N sym in
  Ok (map (fun k =>
             0.5 * (1 - np_cos (pi * of_int k / N))
             * np_exp (- alpha * abs (of_int k - N) / N)) n).

(** The taper formula of [tukey], before the flat region is written. *)
Definition tukey_taper (N alpha : float) (k : Z) : float :=
  0.5 * (1 + np_cos (pi * (abs (of_int k - N) - alpha * N) / ((1 - alpha) * N))).

(** The mask [abs(n - N) < alpha * N] of [tukey]. *)
Definition tukey_flat (N alpha : float) (k : Z) : bool :=
  abs (of_int k - N) <? alpha * N.

(** [tukey(N, sym=False, alpha=0.5)] *)
Definition tukey (N : Z) (sym : bool) (alpha : float) : result (list float) :=
  let n := arange N in
  let N := half_length N sym in
  let w := map (tukey_taper N alpha) n in
  let w := setmask w (map (tukey_flat N alpha) n) 1 in
  Ok w.

(** *** The catalog: [__all__] *)

Inductive family : Type :=
| Boxcar | Bartlett | Barthann | Parzen | Welch | Cosine | Bohman | Lanczos
| Hann | Hamming | Blackman | Blackmanharris | Blackmannuttall
| Kaiserbessel | Flattop
| Exponential | Gaussian | Hannpoisson | Tukey.

Definition catalog : list family :=
  [Boxcar; Bartlett; Barthann; Parzen; Welch; Cosine; Bohman; Lanczos;
   Hann; Hamming; Blackman; Blackmanharris; Blackmannuttall;
   Kaiserbessel; Flattop; Exponential; Gaussian; Hannpoisson; Tukey].

(** The default of [sym] in each signature ([None] for [kaiserbessel]). *)
Definition default_sym (f : family) : option bool :=
  match f with
  | Boxcar | Parzen | Hann => Some true
  | Kaiserbessel => None
  | _ => Some false
  end.

(** The default of the shape parameter of the parametric families. *)
Definition default_shape (f : family) : option float :=
  match f with
  | Exponential | Hannpoisson => Some 1.0
  | Gaussian => Some 0.25
  | Tukey => Some 0.5
  | _ => None
  end.

(** The spec's [generate(N, symmetric, shape)]: the call of one generator
    with an explicit symmetry flag; [shape] is [alpha] or [std] and is
    passed to the parametric families only. *)
Definition generate (f : family) (N : Z) (sym : bool) (shape : float)
  : result (list float) :=
  match f with
  | Boxcar => boxcar N sym
  | Bartlett => bartlett N sym
  | Barthann => barthann N sym
  | Parzen => parzen N sym
  | Welch => welch N sym
  | Cosine => cosine N sym
  | Bohman => bohman N sym
  | Lanczos => lanczos N sym
  | Hann => hann N sym
  | Hamming => hamming N sym
  | Blackman => blackman N sym
  | Blackmanharris => blackmanharris N sym
  | Blackmannuttall => blackmannuttall N sym
  | Kaiserbessel => kaiserbessel N (Some sym)
  | Flattop => flattop N sym
  | Exponential => exponential N sym shape
  | Gaussian => gaussian N sym shape
  | Hannpoisson => hannpoisson N sym shape
  | Tukey => tukey N sym shape
  end.

(** A call that leaves every optional argument to its default. *)
Definition generate_default (f : family) (N : Z) : result (list float) :=
  let shape := match default_shape f with Some a => a | None => 0 end in
  match f, default_sym f with
  | Kaiserbessel, d => kaiserbessel N d
  | _, Some sym => generate f N sym shape
  | _, None => Raise TypeError
  end.

(** The call returned and every sample is finite. *)
Definition returns_finite (r : result (list float)) : bool :=
  match r with
  | Ok w => forallb Fl.finite w
  | Raise _ => false
  end.

End Generators.

(** The families whose only divisor is the adjusted length and whose
    formula passes the quotient to the cosine. *)
Definition cosine_term_families : list family :=
  [Barthann; Hann; Hamming; Blackman; Blackmanharris; Blackmannuttall;
   Kaiserbessel; Flattop].

(** The families whose formula reads the sample index only through its
    distance to the centre [(N - 1 if sym else N) / 2]. *)
Definition mirrored_families : list family :=
  [Bartlett; Exponential; Gaussian; Tukey].

End Window.

(** ** A software mathematical library

    Plain polynomial implementations of the four C library functions, so that
    the generators can be run on concrete inputs.  The theorems below are
    stated for arbitrary [np_sin], [np_cos], [np_exp] and [np_power]; this
    module only supplies one possible choice. *)

Module RefLibm.
#[local] Open Scope float_scope.

(** Round to the nearest integer (ties to even), for [|x| < 2^51]. *)
Definition rint (x : float) : float :=
  (x + 0x1.8p+52) - 0x1.8p+52.

Definition is_odd (k : float) : bool :=
  negb (rint (k / 2) * 2 =? k).

(** Horner evaluation of [sum_i c_i * y^i]. *)
Fixpoint horner (cs : list float) (y : float) : float :=
  match cs with
  | [] => 0
  | c :: cs' => c + y * horner cs' y
  end.

(** Taylor coefficients in [y = r * r]. *)
Definition cos_coeffs : list float :=
  [1; -1 / 2; 1 / 24; -1 / 720; 1 / 40320; -1 / 3628800; 1 / 479001600;
   -1 / 87178291200; 1 / 20922789888000; -1 / 6402373705728000;
   1 / 2432902008176640000].

Definition sin_coeffs : list float :=
  [1; -1 / 6; 1 / 120; -1 / 5040; 1 / 362880; -1 / 39916800; 1 / 6227020800;
   -1 / 1307674368000; 1 / 355687428096000; -1 / 121645100408832000;
   1 / 51090942171709440000].

Definition exp_coeffs : list float :=
  [1; 1; 1 / 2; 1 / 6; 1 / 24; 1 / 120; 1 / 720; 1 / 5040; 1 / 40320;
   1 / 362880; 1 / 3628800; 1 / 39916800; 1 / 479001600].

(** Reduction of the argument to [r] in [-pi/2, pi/2] with [x = k*pi + r]. *)
Definition reduce (x : float) : float * float :=
  let k := rint (x / Fl.pi) in (k, x - k * Fl.pi).

Definition cos (x : float) : float :=
  let '(k, r) := reduce x in
  let c := horner cos_coeffs (r * r) in
  if is_odd k then - c else c.

Definition sin (x : float) : float :=
  let '(k, r) := reduce x in
  let s := r * horner sin_coeffs (r * r) in
  if is_odd k then - s else s.

Fixpoint repeat_square (n : nat) (x : float) : float :=
  match n with
  | O => x
  | S n' => repeat_square n' (x * x)
  end.

(** [exp x = (exp (x / 2^10))^(2^10)]. *)
Definition exp (x : float) : float :=
  if x =? neg_infinity then 0
  else if x =? infinity then infinity
  else repeat_square 10 (horner exp_coeffs (x / 1024)).

(** Powers with a small natural exponent, by repeated multiplication. *)
Definition power (x y : float) : float :=
  if y =? 0 then 1
  else if y =? 1 then x
  else if y =? 2 then x * x
  else if y =? 3 then x * x * x
  else if y =? 4 then (x * x) * (x * x)
  else nan.

End RefLibm.

(** ** [compare.py] *)

Module Compare.
Import Fl Np.

(** What [matplotlib.pyplot] is asked to draw on the current figure. *)
Inductive artist : Type :=
| Line (xs : list Z) (ys : list float)
| Legend (labels : list string)
| XLabel (s : string)
| YLabel (s : string).

Definition figure : Type := list artist.

(** Code that draws: it reads and extends the current figure and may raise. *)
Definition plotting (A : Type) : Type := figure -> result (A * figure).

Definition pure {A} (a : A) : plotting A := fun fig => Ok (a, fig).

Definition andthen {A B} (c : plotting A) (k : A -> plotting B) : plotting B :=
  fun fig => match c fig with
             | Ok (a, fig') => k a fig'
             | Raise e => Raise e
             end.

Definition lift {A} (c : result A) : plotting A :=
  fun fig => match c with Ok a => Ok (a, fig) | Raise e => Raise e end.

(** [plt.plot(x, y)]: matplotlib refuses sequences of different lengths. *)
Definition plt_plot (xs : list Z) (ys : list float) : plotting unit :=
  fun fig =>
    if Nat.eqb (length xs) (length ys) then Ok (tt, fig ++ [Line xs ys])
    else Raise ValueError.

Definition plt_legend (labels : list string) : plotting unit :=
  fun fig => Ok (tt, fig ++ [Legend labels]).

Definition plt_xlabel (s : string) : plotting unit :=
  fun fig => Ok (tt, fig ++ [XLabel s]).

Definition plt_ylabel (s : string) : plotting unit :=
  fun fig => Ok (tt, fig ++ [YLabel s]).

(** A window function as [compare] calls it: [window(N, sym=sym)]. *)
Definition window : Type := Z -> bool -> result (list float).

(** [compare(N, windowTest, windowReference, sym=False)] *)
Definition compare (N : Z) (windowTest windowReference : window) (sym : bool)
  : plotting (list float * list float) :=
  let sample_idx := arange N in
  andthen (lift (windowTest N sym)) (fun test =>
  andthen (plt_plot sample_idx test) (fun _ =>
  andthen (lift (windowReference N sym)) (fun reference =>
  andthen (plt_plot sample_idx reference) (fun _ =>
  andthen (plt_legend ["Test"; "Reference"]%string) (fun _ =>
  andthen (plt_xlabel "$n$") (fun _ =>
  andthen (plt_ylabel "w[n]") (fun _ =>
  pure (test, reference)))))))).

End Compare.

(** ** Binary64 rounding, as the specification of the primitive operations
    defines it

    The primitive operations are specified by [SpecFloat]: a product, sum or
    quotient is an integer mantissa and an exponent rounded to 53 bits by
    [binary_round_aux].  The definitions below name the steps of that
    rounding at the binary64 parameters. *)

Module Binary64.

Abbreviation emin64 := (SpecFloat.emin prec emax).
Abbreviation fexp64 := (SpecFloat.fexp prec emax).
Abbreviation shr_fexp64 := (shr_fexp prec emax).
Abbreviation bra64 := (binary_round_aux prec emax).
Abbreviation round64 := (binary_round prec emax).
Abbreviation normalize64 := (binary_normalize prec emax).
Abbreviation SF_half := (S754_finite false 4503599627370496 (-53)).
Abbreviation SF_one := (S754_finite false 4503599627370496 (-52)).
Abbreviation SF_two := (S754_finite false 4503599627370496 (-51)).

(** The sticky bit: something nonzero was shifted out. *)
Definition nonzero (z : Z) : bool := negb (z =? 0)%Z.

(** [binary_round_aux] before the final case analysis: the rounded mantissa
    and its exponent. *)
Definition round_core (m e : Z) (l : location) : Z * Z :=
  let '(mrs', e') := shr_fexp64 m e l in
  let '(mrs'', e'') :=
    shr_fexp64 (round_nearest_even (shr_m mrs') (loc_of_shr_record mrs')) e' loc_Exact in
  (shr_m mrs'', e'').

(** The final case analysis of [binary_round_aux]: zero, finite or overflow. *)
Definition round_finish (s : bool) (me : Z * Z) : spec_float :=
  match fst me with
  | Z0 => S754_zero s
  | Zpos m =>
      if (snd me <=? emax - prec)%Z then S754_finite s m (snd me)
      else S754_infinity s
  | Zneg _ => S754_nan
  end.

(** Raising the exponent of a result by [d]; it may overflow. *)
Definition lift_exp (d : Z) (x : spec_float) : spec_float :=
  match x with
  | S754_finite s m e =>
      if (e + d <=? emax - prec)%Z then S754_finite s m (e + d)
      else S754_infinity s
  | _ => x
  end.

(** [x] is exactly [z * 2^e0]: a zero or a finite number whose exponent is
    at least [e0], read as an integer multiple of [2^e0]. *)
Definition exact_at (e0 : Z) (x : spec_float) (z : Z) : Prop :=
  match x with
  | S754_zero s => s = false /\ z = 0%Z
  | S754_finite s m e =>
      (e0 <= e)%Z /\ z = (cond_Zopp s (Zpos m) * 2 ^ (e - e0))%Z
  | _ => False
  end.

End Binary64.

(** Evaluate the closed floating-point arguments of the library function [f]. *)
Ltac eval_float_args f :=
  repeat match goal with
    | |- context [f ?a] =>
        let v := eval vm_compute in a in
        progress change a with v
    end.

Import Fl Np Window.
#[local] Open Scope float_scope.

(** * Properties *)

(** ** Lists and the numpy primitives *)

Section ArrayFacts.

Lemma arange_length N : length (arange N) = Z.to_nat N.
Proof. unfold arange. now rewrite length_map, length_seq. Qed.

Lemma arange_nil N : (N <= 0)%Z -> arange N = [].
Proof.
  intros H. unfold arange. replace (Z.to_nat N) with O by lia. reflexivity.
Qed.

Lemma arange_succ N : (0 <= N)%Z -> arange (N + 1) = arange N ++ [N].
Proof.
  intros H. unfold arange.
  replace (Z.to_nat (N + 1)) with (S (Z.to_nat N)) by lia.
  rewrite seq_S, map_app. cbn [map]. f_equal. f_equal. lia.
Qed.

(** The indices of a window of length [N] are the first [N] indices of a
    window of length [N + 1]. *)
Lemma arange_prefix N : firstn (Z.to_nat N) (arange (N + 1)) = arange N.
Proof.
  destruct (Z.leb_spec 0 N) as [H | H].
  - rewrite arange_succ by exact H.
    rewrite <- (arange_length N) at 1.
    rewrite firstn_app, firstn_all, Nat.sub_diag. cbn. now rewrite app_nil_r.
  - replace (Z.to_nat N) with O by lia. cbn.
    symmetry. apply arange_nil. lia.
Qed.

Lemma arange_In N k : In k (arange N) -> (0 <= k < N)%Z.
Proof.
  unfold arange. rewrite in_map_iff. intros (i & <- & Hi).
  apply in_seq in Hi. lia.
Qed.

Lemma map_arange_prefix {A} (f : Z -> A) N :
  firstn (Z.to_nat N) (map f (arange (N + 1))) = map f (arange N).
Proof. now rewrite firstn_map, arange_prefix. Qed.

Lemma repeat_prefix {A} (v : A) n : firstn n (repeat v (S n)) = repeat v n.
Proof. induction n as [| n IH]; [reflexivity |]. cbn in *. now rewrite IH. Qed.

Lemma full_prefix v N w :
  full v N = Ok w ->
  exists w', full v (N + 1) = Ok w' /\ w = firstn (Z.to_nat N) w'.
Proof.
  unfold full. destruct (Z.ltb_spec N 0) as [H | H]; [discriminate |].
  intros [= <-]. destruct (Z.ltb_spec (N + 1) 0) as [H' | _]; [lia |].
  eexists. split; [reflexivity |].
  replace (Z.to_nat (N + 1)) with (S (Z.to_nat N)) by lia.
  now rewrite repeat_prefix.
Qed.

Lemma full_length v N w : full v N = Ok w -> length w = Z.to_nat N.
Proof.
  unfold full. destruct (N <? 0)%Z; [discriminate |].
  intros [= <-]. apply repeat_length.
Qed.

Lemma set_nth_length w i v : length (set_nth w i v) = length w.
Proof.
  revert i. induction w as [| x w IH]; intros [| i]; cbn; try reflexivity.
  now rewrite IH.
Qed.

Lemma set_nth_lookup w i v :
  (i < length w)%nat -> nth_error (set_nth w i v) i = Some v.
Proof.
  revert i. induction w as [| x w IH]; intros [| i] H; cbn in *; try lia.
  - reflexivity.
  - apply IH. lia.
Qed.

Lemma set_nth_firstn w i v n :
  (i < n)%nat -> firstn n (set_nth w i v) = set_nth (firstn n w) i v.
Proof.
  revert i n. induction w as [| x w IH]; intros i n H.
  - destruct n; destruct i; reflexivity.
  - destruct n as [| n]; [lia |]. destruct i as [| i]; cbn; [reflexivity |].
    f_equal. apply IH. lia.
Qed.

Lemma setitem_length w i v w' : setitem w i v = Ok w' -> length w' = length w.
Proof.
  unfold setitem.
  destruct (_ && _); [intros [= <-]; apply set_nth_length |].
  destruct (_ && _); [intros [= <-]; apply set_nth_length | discriminate].
Qed.

(** On an empty array every index is out of bounds. *)
Lemma setitem_nil i v : setitem [] i v = Raise IndexError.
Proof.
  unfold setitem. cbn.
  destruct (Z.leb_spec 0 i), (Z.ltb_spec i 0); cbn; try reflexivity; lia.
Qed.

Lemma setitem_inbounds w i v :
  (0 <= i < Z.of_nat (length w))%Z ->
  setitem w i v = Ok (set_nth w (Z.to_nat i) v).
Proof.
  intros H. unfold setitem.
  destruct (Z.leb_spec 0 i), (Z.ltb_spec i (Z.of_nat (length w)));
    cbn; try reflexivity; lia.
Qed.

Lemma setmask_length w mask v : length (setmask w mask v) = length w.
Proof.
  revert mask. induction w as [| x w IH]; intros [| b mask]; cbn; try reflexivity.
  now rewrite IH.
Qed.

Lemma setmask_firstn w mask v n :
  firstn n (setmask w mask v) = setmask (firstn n w) (firstn n mask) v.
Proof.
  revert mask n. induction w as [| x w IH]; intros mask n.
  - now rewrite !firstn_nil.
  - destruct n as [| n]; [reflexivity |].
    destruct mask as [| b mask]; cbn; [reflexivity |]. now rewrite IH.
Qed.

(** A mask that holds nowhere leaves the array as it is. *)
Lemma setmask_none {A} (flat : A -> bool) (ks : list A) w v :
  (forall k, In k ks -> flat k = false) ->
  setmask w (map flat ks) v = w.
Proof.
  revert w. induction ks as [| k ks IH]; intros w H.
  - now destruct w.
  - destruct w as [| x w]; [reflexivity |]. cbn.
    rewrite (H k) by now left. f_equal. apply IH. intros; apply H. now right.
Qed.

Lemma setmask_values_length w mask vals :
  length (setmask_values w mask vals) = length w.
Proof.
  revert mask vals.
  induction w as [| x w IH]; intros [| b mask] [| y vals]; cbn; try reflexivity.
  now rewrite IH.
Qed.

Lemma setmask_values_firstn w mask vals n :
  firstn n (setmask_values w mask vals)
  = setmask_values (firstn n w) (firstn n mask) (firstn n vals).
Proof.
  revert mask vals n. induction w as [| x w IH]; intros mask vals n.
  - now rewrite !firstn_nil.
  - destruct n as [| n]; [reflexivity |].
    destruct mask as [| b mask]; [reflexivity |].
    destruct vals as [| y vals]; cbn; [reflexivity |]. now rewrite IH.
Qed.

End ArrayFacts.

(** ** Binary64 arithmetic

    Facts about the rounding of the primitive operations, proved on their
    specification in [SpecFloat]. *)

Import Binary64.
#[local] Open Scope Z_scope.

Lemma emin64_value : emin64 = -1074.
Proof. reflexivity. Qed.

Lemma fexp64_value z : fexp64 z = Z.max (z - 53) (-1074).
Proof. reflexivity. Qed.

(** *** Number of binary digits *)

Lemma digits2_pos_bounds (p : positive) :
  2 ^ (Zpos (digits2_pos p) - 1) <= Zpos p < 2 ^ Zpos (digits2_pos p).
Proof.
  induction p as [p IH | p IH |]; cbn [digits2_pos].
  - rewrite Pos2Z.inj_succ.
    replace (Z.succ (Zpos (digits2_pos p)) - 1) with (Zpos (digits2_pos p) - 1 + 1) by lia.
    rewrite Z.pow_succ_r by lia. rewrite Z.pow_add_r by lia. lia.
  - rewrite Pos2Z.inj_succ.
    replace (Z.succ (Zpos (digits2_pos p)) - 1) with (Zpos (digits2_pos p) - 1 + 1) by lia.
    rewrite Z.pow_succ_r by lia. rewrite Z.pow_add_r by lia. lia.
  - cbn. lia.
Qed.

Lemma Zdigits2_nonneg z : 0 <= Zdigits2 z.
Proof. destruct z; cbn; lia. Qed.

Lemma Zdigits2_bounds z :
  0 < z -> 2 ^ (Zdigits2 z - 1) <= z < 2 ^ Zdigits2 z.
Proof. destruct z as [| p | p]; try lia. intros _. apply digits2_pos_bounds. Qed.

Lemma Zdigits2_unique z d :
  2 ^ (d - 1) <= z < 2 ^ d -> 0 < z -> Zdigits2 z = d.
Proof.
  intros [Hl Hu] Hz. pose proof (Zdigits2_bounds z Hz) as [Hl' Hu'].
  pose proof (Zdigits2_nonneg z).
  assert (0 < d). { destruct (Z.ltb_spec 0 d); [lia |]. 
    assert (2 ^ d <= 1). { destruct (Z.eqb_spec d 0) as [-> |]; [cbn; lia |]. rewrite Z.pow_neg_r by lia. lia. } lia. }
  assert (~ Zdigits2 z < d).
  { intros Hlt. assert (2 ^ Zdigits2 z <= 2 ^ (d - 1)) by (apply Z.pow_le_mono_r; lia). lia. }
  assert (~ d < Zdigits2 z).
  { intros Hlt. assert (2 ^ d <= 2 ^ (Zdigits2 z - 1)) by (apply Z.pow_le_mono_r; lia). lia. }
  lia.
Qed.

Lemma Zdigits2_le z k : 0 <= k -> 0 <= z < 2 ^ k -> Zdigits2 z <= k.
Proof.
  intros Hk [Hz Hu]. destruct (Z.eqb_spec z 0) as [-> |]; [cbn; lia |].
  pose proof (Zdigits2_bounds z ltac:(lia)) as [Hl _].
  destruct (Z.leb_spec (Zdigits2 z) k); [lia |].
  assert (2 ^ k <= 2 ^ (Zdigits2 z - 1)) by (apply Z.pow_le_mono_r; lia). lia.
Qed.

Lemma Zdigits2_ge z k : 0 <= k -> 2 ^ k <= z -> k + 1 <= Zdigits2 z.
Proof.
  intros Hk Hl. assert (0 < z) by (pose proof (Z.pow_pos_nonneg 2 k); lia).
  pose proof (Zdigits2_bounds z H) as [_ Hu].
  destruct (Z.leb_spec (k + 1) (Zdigits2 z)); [lia |].
  assert (2 ^ Zdigits2 z <= 2 ^ k) by (apply Z.pow_le_mono_r; lia). lia.
Qed.

Lemma Zdigits2_mono a b : 0 <= a <= b -> Zdigits2 a <= Zdigits2 b.
Proof.
  intros [Ha Hab]. destruct (Z.eqb_spec a 0) as [-> |]; [apply Zdigits2_nonneg |].
  pose proof (Zdigits2_bounds a ltac:(lia)) as [Hl _].
  pose proof (Zdigits2_nonneg a).
  assert (1 <= Zdigits2 a). { destruct a; cbn in *; lia. }
  pose proof (Zdigits2_ge b (Zdigits2 a - 1) ltac:(lia) ltac:(lia)). lia.
Qed.

(** *** Right shifts *)

Lemma iter_pos_nat {A} (f : A -> A) (p : positive) (x : A) :
  iter_pos f p x = Nat.iter (Pos.to_nat p) f x.
Proof.
  revert x. induction p as [p IH | p IH |]; intros x; cbn [iter_pos].
  - rewrite !IH, Pos2Nat.inj_xI.
    replace (2 * Pos.to_nat p)%nat with (Pos.to_nat p + Pos.to_nat p)%nat by lia.
    now rewrite Nat.iter_succ_r, Nat.iter_add.
  - rewrite !IH, Pos2Nat.inj_xO.
    replace (2 * Pos.to_nat p)%nat with (Pos.to_nat p + Pos.to_nat p)%nat by lia.
    now rewrite Nat.iter_add.
  - reflexivity.
Qed.


(** One step: the mantissa is halved, the round bit is the bit shifted
    out, the sticky bit collects what was shifted out before. *)
Lemma shr_1_spec m r s :
  0 <= m ->
  shr_1 (Build_shr_record m r s) = Build_shr_record (m / 2) (Z.odd m) (r || s).
Proof.
  intros Hm. destruct m as [| p | p]; [reflexivity | | lia].
  destruct p as [p | p |]; cbn [shr_1].
  - replace (Z.pos p~1 / 2) with (Z.pos p); [reflexivity |].
    rewrite Pos2Z.inj_xI. apply Z.div_unique with 1; lia.
  - replace (Z.pos p~0 / 2) with (Z.pos p); [reflexivity |].
    rewrite Pos2Z.inj_xO. apply Z.div_unique with 0; lia.
  - reflexivity.
Qed.

Lemma shr_nat_spec (k : nat) (m : Z) :
  0 <= m ->
  Nat.iter (S k) shr_1 (Build_shr_record m false false)
  = Build_shr_record (m / 2 ^ Z.of_nat (S k))
      (Z.odd (m / 2 ^ Z.of_nat k))
      (nonzero (m mod 2 ^ Z.of_nat k)).
Proof.
  intros Hm. induction k as [| k IH].
  - cbn [Nat.iter]. rewrite shr_1_spec by exact Hm. cbn [Z.of_nat].
    rewrite Z.pow_0_r, Z.div_1_r, Z.mod_1_r. reflexivity.
  - change (Nat.iter (S (S k)) shr_1 ?x) with (shr_1 (Nat.iter (S k) shr_1 x)).
    rewrite IH. rewrite shr_1_spec by (apply Z.div_pos; [lia | apply Z.pow_pos_nonneg; lia]).
    assert (P : 0 < 2 ^ Z.of_nat k) by (apply Z.pow_pos_nonneg; lia).
    assert (E1 : 2 ^ Z.of_nat (S k) = 2 ^ Z.of_nat k * 2)
      by (rewrite Nat2Z.inj_succ, Z.pow_succ_r; lia).
    assert (E2 : 2 ^ Z.of_nat (S (S k)) = 2 ^ Z.of_nat (S k) * 2)
      by (rewrite (Nat2Z.inj_succ (S k)), Z.pow_succ_r; lia).
    f_equal.
    + rewrite E2. rewrite Z.div_div by lia. reflexivity.
    + rewrite E1. rewrite Z.rem_mul_r by lia.
      unfold nonzero.
      pose proof (Z.mod_pos_bound m (2 ^ Z.of_nat k) P).
      pose proof (Z.mod_pos_bound (m / 2 ^ Z.of_nat k) 2 ltac:(lia)).
      rewrite Zodd_mod.
      set (a := m mod 2 ^ Z.of_nat k) in *.
      set (b := (m / 2 ^ Z.of_nat k) mod 2) in *.
      destruct (Z.eqb_spec b 1), (Z.eqb_spec a 0),
        (Z.eqb_spec (a + 2 ^ Z.of_nat k * b) 0); cbn;
        try reflexivity; exfalso; nia.
Qed.

(** [shr] by a positive count [k]. *)
Lemma shr_spec (m e k : Z) :
  0 <= m -> 0 < k ->
  shr (Build_shr_record m false false) e k
  = (Build_shr_record (m / 2 ^ k) (Z.odd (m / 2 ^ (k - 1)))
       (nonzero (m mod 2 ^ (k - 1))), e + k).
Proof.
  intros Hm Hk. destruct k as [| p | p]; try lia.
  unfold shr. rewrite iter_pos_nat.
  destruct (Pos.to_nat p) as [| n] eqn:E; [lia |].
  rewrite shr_nat_spec by exact Hm.
  replace (Z.of_nat (S n)) with (Z.pos p) by lia.
  replace (Z.of_nat n) with (Z.pos p - 1) by lia.
  reflexivity.
Qed.

Lemma shr_nonpos r e k : k <= 0 -> shr r e k = (r, e).
Proof. intros H. destruct k; try reflexivity. lia. Qed.

(** The mantissa after any shift, whatever the round and sticky bits. *)
Lemma shr_1_m r : 0 <= shr_m r -> shr_m (shr_1 r) = shr_m r / 2.
Proof. destruct r as [m b s]. cbn [shr_m]. intros H. now rewrite shr_1_spec. Qed.

Lemma shr_m_spec r e k :
  0 <= shr_m r -> 0 <= k ->
  shr_m (fst (shr r e k)) = shr_m r / 2 ^ k /\ snd (shr r e k) = e + k.
Proof.
  intros Hm Hk. destruct k as [| p | p]; try lia.
  - cbn. rewrite Z.div_1_r. lia.
  - unfold shr. cbn [fst snd]. split; [| reflexivity].
    rewrite iter_pos_nat. rewrite <- (positive_nat_Z p).
    induction (Pos.to_nat p) as [| n IH].
    + cbn. now rewrite Z.div_1_r.
    + rewrite Nat.iter_succ. rewrite shr_1_m.
      * rewrite IH, Nat2Z.inj_succ, Z.pow_succ_r by lia.
        pose proof (Z.pow_pos_nonneg 2 (Z.of_nat n) ltac:(lia) ltac:(lia)).
        rewrite Z.div_div by lia. f_equal; lia.
      * rewrite IH. apply Z.div_pos; [lia | apply Z.pow_pos_nonneg; lia].
Qed.

(** *** Rounding to 53 bits *)


Lemma bra64_core s m e l : bra64 s m e l = round_finish s (round_core m e l).
Proof.
  unfold binary_round_aux, round_core, round_finish.
  destruct (shr_fexp64 m e l) as [mrs' e'].
  destruct (shr_fexp64 _ e' loc_Exact) as [mrs'' e'']. reflexivity.
Qed.

Lemma round_finish_shift s m e d :
  0 <= d -> round_finish s (m, e + d) = lift_exp d (round_finish s (m, e)).
Proof.
  intros Hd. unfold round_finish, lift_exp. cbn [fst snd].
  destruct m as [| p | p]; try reflexivity.
  destruct (Z.leb_spec e (emax - prec)); [reflexivity |].
  destruct (Z.leb_spec (e + d) (emax - prec)); [lia | reflexivity].
Qed.

Lemma shr_record_of_loc_m m l : shr_m (shr_record_of_loc m l) = m.
Proof. destruct l as [| []]; reflexivity. Qed.

Lemma round_nearest_even_bounds m l :
  m <= round_nearest_even m l <= m + 1.
Proof.
  destruct l as [| []]; cbn; try lia. destruct (Z.even m); lia.
Qed.

Lemma shr_exp_shift r e k d :
  shr r (e + d) k = (fst (shr r e k), snd (shr r e k) + d).
Proof. destruct k; cbn; f_equal; lia. Qed.

(** The mantissa and exponent after the first shift of [shr_fexp]. *)
Lemma shr_fexp64_m m e l :
  0 <= m ->
  let k := fexp64 (Zdigits2 m + e) - e in
  shr_m (fst (shr_fexp64 m e l)) = m / 2 ^ Z.max k 0
  /\ snd (shr_fexp64 m e l) = e + Z.max k 0.
Proof.
  intros Hm k. unfold shr_fexp. fold k.
  destruct (Z.leb_spec k 0) as [Hk | Hk].
  - rewrite shr_nonpos by exact Hk. cbn [fst snd].
    rewrite shr_record_of_loc_m, Z.max_r by exact Hk.
    rewrite Z.pow_0_r, Z.div_1_r. lia.
  - rewrite Z.max_l by lia.
    pose proof (shr_m_spec (shr_record_of_loc m l) e k) as H.
    rewrite shr_record_of_loc_m in H. apply H; lia.
Qed.

(** Without underflow the first shift does not depend on the exponent. *)
Lemma shr_fexp64_shift m e l d :
  -1074 <= Zdigits2 m + e - 53 -> 0 <= d ->
  shr_fexp64 m (e + d) l
  = (fst (shr_fexp64 m e l), snd (shr_fexp64 m e l) + d).
Proof.
  intros Hu Hd. unfold shr_fexp. rewrite !fexp64_value.
  replace (Z.max (Zdigits2 m + (e + d) - 53) (-1074) - (e + d))
    with (Z.max (Zdigits2 m + e - 53) (-1074) - e) by lia.
  apply shr_exp_shift.
Qed.

Lemma div_pow2_lower m d k :
  0 <= k <= d -> 2 ^ d <= m -> 2 ^ (d - k) <= m / 2 ^ k.
Proof.
  intros Hk Hm. apply Z.div_le_lower_bound; [apply Z.pow_pos_nonneg; lia |].
  rewrite <- Z.pow_add_r by lia. now replace (k + (d - k)) with d by lia.
Qed.

Lemma div_pow2_upper m d k :
  0 <= k <= d -> 0 <= m < 2 ^ d -> m / 2 ^ k < 2 ^ (d - k).
Proof.
  intros Hk Hm. apply Z.div_lt_upper_bound; [apply Z.pow_pos_nonneg; lia |].
  rewrite <- Z.pow_add_r by lia. now replace (k + (d - k)) with d by lia.
Qed.

(** After the first shift and the rounding, a mantissa that did not
    underflow still does not. *)
Lemma round_stage_no_underflow m e l :
  0 < m -> -1074 <= Zdigits2 m + e - 53 ->
  let m1 := round_nearest_even (shr_m (fst (shr_fexp64 m e l)))
              (loc_of_shr_record (fst (shr_fexp64 m e l))) in
  -1074 <= Zdigits2 m1 + snd (shr_fexp64 m e l) - 53.
Proof.
  intros Hm Hu m1.
  destruct (shr_fexp64_m m e l ltac:(lia)) as [Hq He].
  pose proof (round_nearest_even_bounds (shr_m (fst (shr_fexp64 m e l)))
                (loc_of_shr_record (fst (shr_fexp64 m e l)))) as Hr.
  fold m1 in Hr. rewrite Hq in Hr. rewrite He.
  rewrite fexp64_value in *.
  pose proof (Zdigits2_bounds m Hm) as [Hl _].
  pose proof (Zdigits2_nonneg m) as Hd.
  set (d := Zdigits2 m) in *.
  replace (Z.max (d + e - 53) (-1074) - e) with (d - 53) in * by lia.
  destruct (Z.leb_spec (d - 53) 0) as [Hk | Hk].
  - rewrite Z.max_r in * by lia. rewrite Z.pow_0_r, Z.div_1_r in Hr.
    pose proof (Zdigits2_mono m m1 ltac:(lia)). fold d in H. lia.
  - rewrite Z.max_l in * by lia.
    pose proof (div_pow2_lower m (d - 1) (d - 53) ltac:(lia) Hl) as Hlow.
    replace (d - 1 - (d - 53)) with 52 in Hlow by lia.
    pose proof (Zdigits2_ge m1 52 ltac:(lia) ltac:(lia)). lia.
Qed.

(** Exponent equivariance of the rounding: without underflow, the same
    mantissa at an exponent larger by [d] rounds to the same mantissa at an
    exponent larger by [d]. *)
Lemma round_core_shift m e l d :
  0 < m -> -1074 <= Zdigits2 m + e - 53 -> 0 <= d ->
  round_core m (e + d) l
  = (fst (round_core m e l), snd (round_core m e l) + d).
Proof.
  intros Hm Hu Hd. unfold round_core.
  rewrite shr_fexp64_shift by assumption.
  pose proof (round_stage_no_underflow m e l Hm Hu) as Hu2. cbv zeta in Hu2.
  destruct (shr_fexp64 m e l) as [mrs' e']. cbn [fst snd] in *.
  rewrite shr_fexp64_shift by assumption.
  destruct (shr_fexp64 _ e' loc_Exact) as [mrs'' e'']. reflexivity.
Qed.

Lemma bra64_shift s m e l d :
  0 < m -> -1074 <= Zdigits2 m + e - 53 -> 0 <= d ->
  bra64 s m (e + d) l = lift_exp d (bra64 s m e l).
Proof.
  intros Hm Hu Hd. rewrite !bra64_core, round_core_shift by assumption.
  rewrite round_finish_shift by exact Hd. now destruct (round_core m e l).
Qed.

Lemma fexp64_succ_le z : fexp64 (z + 1) <= fexp64 z + 1.
Proof. rewrite !fexp64_value. lia. Qed.

Lemma fexp64_mono a b : a <= b -> fexp64 a <= fexp64 b.
Proof. rewrite !fexp64_value. lia. Qed.

Lemma Zdigits2_succ_le m : 0 <= m -> Zdigits2 (m + 1) <= Zdigits2 m + 1.
Proof.
  intros Hm. pose proof (Zdigits2_nonneg m).
  destruct (Z.eqb_spec m 0) as [-> |]; [cbn; lia |].
  pose proof (Zdigits2_bounds m ltac:(lia)) as [_ Hu].
  apply Zdigits2_le; [lia |]. rewrite Z.pow_add_r by lia. lia.
Qed.

(** The rounded mantissa is not negative, and the exponent moves up by at
    most one more than the first shift. *)
Lemma round_core_bounds m e l :
  0 <= m ->
  0 <= fst (round_core m e l)
  /\ e <= snd (round_core m e l) <= Z.max e (fexp64 (Zdigits2 m + e)) + 1.
Proof.
  intros Hm. unfold round_core.
  destruct (shr_fexp64_m m e l Hm) as [Hq He].
  pose proof (round_nearest_even_bounds (shr_m (fst (shr_fexp64 m e l)))
                (loc_of_shr_record (fst (shr_fexp64 m e l)))) as Hr.
  destruct (shr_fexp64 m e l) as [mrs' e']. cbn [fst snd] in *.
  set (m1 := round_nearest_even (shr_m mrs') (loc_of_shr_record mrs')) in *.
  set (k := fexp64 (Zdigits2 m + e) - e) in *.
  assert (Hq0 : 0 <= m / 2 ^ Z.max k 0)
    by (apply Z.div_pos; [lia | apply Z.pow_pos_nonneg; lia]).
  assert (Hm1 : 0 <= m1) by lia.
  destruct (shr_fexp64_m m1 e' loc_Exact Hm1) as [Hq' He'].
  destruct (shr_fexp64 m1 e' loc_Exact) as [mrs'' e'']. cbn [fst snd] in *.
  set (k' := fexp64 (Zdigits2 m1 + e') - e') in *.
  split.
  - rewrite Hq'. apply Z.div_pos; [lia | apply Z.pow_pos_nonneg; lia].
  - split; [lia |].
    assert (Hk' : k' <= Z.max (e + Z.max k 0) (fexp64 (Zdigits2 m + e)) + 1 - e'); [| lia].
    unfold k'. pose proof (Zdigits2_nonneg m) as Hd.
    assert (Hd1 : Zdigits2 m1 <= Zdigits2 (m / 2 ^ Z.max k 0) + 1).
    { etransitivity; [apply (Zdigits2_mono m1 (m / 2 ^ Z.max k 0 + 1)); lia |].
      apply Zdigits2_succ_le; lia. }
    destruct (Z.leb_spec k 0) as [Hk | Hk].
    + rewrite Z.max_r in * by lia. rewrite Z.pow_0_r, Z.div_1_r in *.
      pose proof (fexp64_mono (Zdigits2 m1 + e') (Zdigits2 m + e + 1) ltac:(lia)).
      pose proof (fexp64_succ_le (Zdigits2 m + e)). lia.
    + rewrite Z.max_l in * by lia.
      destruct (Z.leb_spec k (Zdigits2 m)) as [Hkd | Hkd].
      * assert (Zdigits2 (m / 2 ^ k) <= Zdigits2 m - k).
        { apply Zdigits2_le; [lia |]. split; [lia |].
          destruct (Z.eqb_spec m 0) as [-> |].
          - rewrite Z.div_0_l by (apply Z.pow_nonzero; lia).
            apply Z.pow_pos_nonneg; lia.
          - apply div_pow2_upper; [lia |].
            split; [lia | apply Zdigits2_bounds; lia]. }
        pose proof (fexp64_mono (Zdigits2 m1 + e') (Zdigits2 m + e + 1) ltac:(lia)).
        pose proof (fexp64_succ_le (Zdigits2 m + e)). lia.
      * assert (m / 2 ^ k = 0) as Hz.
        { apply Z.div_small. split; [lia |].
          destruct (Z.eqb_spec m 0) as [-> |]; [apply Z.pow_pos_nonneg; lia |].
          pose proof (Zdigits2_bounds m ltac:(lia)) as [_ Hu].
          assert (2 ^ Zdigits2 m <= 2 ^ k) by (apply Z.pow_le_mono_r; lia). lia. }
        rewrite Hz in *. cbn in Hd1.
        unfold k, k' in *. rewrite !fexp64_value in *. lia.
Qed.

(** The shape of a rounded result. *)
Lemma round_finish_shape s m e :
  0 <= m ->
  match round_finish s (m, e) with
  | S754_zero s' => s' = s /\ m = 0
  | S754_finite s' m' e' => s' = s /\ Zpos m' = m /\ e' = e /\ e <= 971
  | S754_infinity s' => s' = s /\ 971 < e
  | S754_nan => False
  end.
Proof.
  intros Hm. unfold round_finish. cbn [fst snd].
  destruct m as [| p | p]; [auto | | lia].
  change (emax - prec) with 971.
  destruct (Z.leb_spec e 971); auto.
Qed.

(** *** Left alignment and [binary_round] *)

Lemma iter_xO_value (m d : positive) :
  Zpos (Pos.iter xO m d) = Zpos m * 2 ^ Zpos d.
Proof.
  induction d as [| d IH] using Pos.peano_ind.
  - cbn. lia.
  - rewrite Pos.iter_succ, Pos2Z.inj_xO, IH, Pos2Z.inj_succ, Z.pow_succ_r by lia.
    lia.
Qed.

Lemma shl_align_value m e e' :
  Zpos (fst (shl_align m e e')) = Zpos m * 2 ^ Z.max (e - e') 0
  /\ snd (shl_align m e e') = Z.min e e'.
Proof.
  unfold shl_align. destruct (e' - e) as [| d | d] eqn:E; cbn [fst snd].
  - rewrite Z.max_r by lia. cbn. lia.
  - rewrite Z.max_r by lia. cbn. lia.
  - rewrite iter_xO_value. replace (Z.max (e - e') 0) with (Zpos d) by lia. lia.
Qed.

Lemma shl_align_shift m e e' d :
  shl_align m (e + d) (e' + d)
  = (fst (shl_align m e e'), snd (shl_align m e e') + d).
Proof.
  unfold shl_align. replace (e' + d - (e + d)) with (e' - e) by lia.
  destruct (e' - e); reflexivity.
Qed.

Lemma Zdigits2_mul_pow2 m k :
  0 < m -> 0 <= k -> Zdigits2 (m * 2 ^ k) = Zdigits2 m + k.
Proof.
  intros Hm Hk. pose proof (Zdigits2_bounds m Hm) as [Hl Hu].
  pose proof (Z.pow_pos_nonneg 2 k ltac:(lia) Hk) as Hp.
  assert (1 <= Zdigits2 m) by (destruct m; cbn in *; lia).
  apply Zdigits2_unique; [| nia].
  replace (Zdigits2 m + k - 1) with (Zdigits2 m - 1 + k) by lia.
  rewrite !Z.pow_add_r by lia. nia.
Qed.

Lemma round64_core s p e :
  round64 s p e
  = round_finish s
      (round_core (Zpos (fst (shl_align p e (fexp64 (Zpos (digits2_pos p) + e)))))
         (snd (shl_align p e (fexp64 (Zpos (digits2_pos p) + e)))) loc_Exact).
Proof.
  unfold binary_round.
  destruct (shl_align p e _) as [mz ez]. cbn [fst snd]. apply bra64_core.
Qed.

(** Exponent equivariance of [binary_round]. *)
Lemma round64_shift s p e d :
  -1074 <= Zpos (digits2_pos p) + e - 53 -> 0 <= d ->
  round64 s p (e + d) = lift_exp d (round64 s p e).
Proof.
  intros Hu Hd. rewrite !round64_core.
  replace (fexp64 (Zpos (digits2_pos p) + (e + d)))
    with (fexp64 (Zpos (digits2_pos p) + e) + d) by (rewrite !fexp64_value; lia).
  rewrite shl_align_shift. cbn [fst snd].
  destruct (shl_align_value p e (fexp64 (Zpos (digits2_pos p) + e))) as [Hv He].
  rewrite round_core_shift; try lia.
  - rewrite round_finish_shift by exact Hd. now destruct (round_core _ _ _).
  - rewrite Hv, He, Zdigits2_mul_pow2 by lia. cbn [Zdigits2].
    rewrite fexp64_value in *. lia.
Qed.

(** *** Valid binary64 values *)

Lemma valid_finite_bounds s m e :
  valid_binary (S754_finite s m e) = true ->
  Zpos (digits2_pos m) <= 53 /\ -1074 <= e <= 971
  /\ (-1074 < e -> Zpos (digits2_pos m) = 53).
Proof.
  cbn [SpecFloat.valid_binary]. unfold bounded, canonical_mantissa.
  rewrite andb_true_iff, Z.eqb_eq, Z.leb_le, fexp64_value.
  change (emax - prec) with 971. lia.
Qed.

(** A 53-bit mantissa scaled by a power of two is not changed by rounding. *)
Lemma round_core_exact (m : positive) (g e : Z) :
  Zpos (digits2_pos m) = 53 -> 0 <= g -> -1074 <= e + g ->
  round_core (Zpos m * 2 ^ g) e loc_Exact = (Zpos m, e + g).
Proof.
  intros Hd Hg He.
  assert (Hstay : forall e0, -1074 <= e0 ->
            shr_fexp64 (Zpos m) e0 loc_Exact
            = (Build_shr_record (Zpos m) false false, e0)).
  { intros e0 He0. unfold shr_fexp. cbn [Zdigits2]. rewrite Hd, fexp64_value.
    now rewrite shr_nonpos by lia. }
  unfold round_core.
  destruct (Z.eqb_spec g 0) as [-> | Hg0].
  - rewrite Z.pow_0_r, Z.mul_1_r, Z.add_0_r in *.
    rewrite Hstay by lia. cbn [shr_m loc_of_shr_record round_nearest_even].
    now rewrite Hstay by lia.
  - pose proof (Z.pow_pos_nonneg 2 g ltac:(lia) Hg) as Hp.
    pose proof (Z.pow_pos_nonneg 2 (g - 1) ltac:(lia) ltac:(lia)) as Hp1.
    assert (E : 2 ^ g = 2 * 2 ^ (g - 1)).
    { rewrite <- Z.pow_succ_r by lia. f_equal. lia. }
    unfold shr_fexp at 1.
    rewrite Zdigits2_mul_pow2 by lia. cbn [Zdigits2]. rewrite Hd, fexp64_value.
    replace (Z.max (53 + g + e - 53) (-1074) - e) with g by lia.
    cbn [shr_record_of_loc]. rewrite shr_spec by lia.
    rewrite Z.div_mul by lia.
    replace (Zpos m * 2 ^ g / 2 ^ (g - 1)) with (2 * Zpos m)
      by (rewrite E; apply Z.div_unique with 0; lia).
    replace (Zpos m * 2 ^ g mod 2 ^ (g - 1)) with 0
      by (rewrite E; apply Z.mod_unique with (2 * Zpos m); lia).
    rewrite Z.odd_mul. cbn [Z.odd nonzero andb Z.eqb negb].
    cbn [shr_m loc_of_shr_record round_nearest_even].
    now rewrite Hstay by lia.
Qed.

Lemma round_finish_finite s (m : positive) e :
  e <= 971 -> round_finish s (Zpos m, e) = S754_finite s m e.
Proof.
  intros He. unfold round_finish. cbn [fst snd]. change (emax - prec) with 971.
  now destruct (Z.leb_spec e 971); [| lia].
Qed.


(** Halving a normal number lowers its exponent. *)
Lemma SF64mul_half_normal s m e :
  Zpos (digits2_pos m) = 53 -> -1074 < e <= 972 ->
  SF64mul SF_half (S754_finite s m e) = S754_finite s m (e - 1).
Proof.
  intros Hd He. unfold SF64mul, SFmul. rewrite bra64_core.
  rewrite Pos2Z.inj_mul, Z.mul_comm.
  change (Zpos 4503599627370496) with (2 ^ 52).
  rewrite round_core_exact by lia.
  replace (-53 + e + 52) with (e - 1) by lia.
  cbn [xorb]. apply round_finish_finite. lia.
Qed.

Lemma div_eucl_pair a b : Z.div_eucl a b = (a / b, a mod b).
Proof. unfold Z.div, Z.modulo. now destruct (Z.div_eucl a b). Qed.

Lemma SF64div_two_normal s m e :
  Zpos (digits2_pos m) = 53 -> -1072 <= e <= 972 ->
  SF64div (S754_finite s m e) SF_two = S754_finite s m (e - 1).
Proof.
  intros Hd He. unfold SF64div, SFdiv, SFdiv_core_binary.
  cbn [Zdigits2]. rewrite Hd. change (Zpos (digits2_pos 4503599627370496)) with 53.
  rewrite fexp64_value.
  replace (Z.min (Z.max (53 + e - (53 + -51) - 53) (-1074)) (e - -51))
    with (e - 2) by lia.
  replace (e - -51 - (e - 2)) with 53 by lia.
  rewrite div_eucl_pair.
  rewrite Z.shiftl_mul_pow2 by lia.
  change (Zpos 4503599627370496) with (2 ^ 52).
  replace (Zpos m * 2 ^ 53 / 2 ^ 52) with (Zpos m * 2 ^ 1)
    by (apply Z.div_unique with 0; [lia |];
        change (2 ^ 53) with (2 ^ 52 * 2 ^ 1); lia).
  replace (Zpos m * 2 ^ 53 mod 2 ^ 52) with 0
    by (apply Z.mod_unique with (Zpos m * 2 ^ 1); [lia |];
        change (2 ^ 53) with (2 ^ 52 * 2 ^ 1); lia).
  change (new_location (2 ^ 52) 0) with loc_Exact.
  rewrite bra64_core, round_core_exact by lia.
  rewrite xorb_false_r.
  replace (e - 2 + 1) with (e - 1) by lia.
  apply round_finish_finite. lia.
Qed.

(** Without underflow a positive mantissa stays positive. *)
Lemma shr_fexp64_pos m e l :
  0 < m -> -1074 <= Zdigits2 m + e - 53 ->
  0 < shr_m (fst (shr_fexp64 m e l)).
Proof.
  intros Hm Hu. destruct (shr_fexp64_m m e l ltac:(lia)) as [Hq _].
  rewrite Hq, fexp64_value.
  pose proof (Zdigits2_bounds m Hm) as [Hl _].
  set (d := Zdigits2 m) in *.
  replace (Z.max (d + e - 53) (-1074) - e) with (d - 53) by lia.
  destruct (Z.leb_spec (d - 53) 0) as [Hk | Hk].
  - rewrite Z.max_r by lia. now rewrite Z.pow_0_r, Z.div_1_r.
  - rewrite Z.max_l by lia.
    pose proof (div_pow2_lower m (d - 1) (d - 53) ltac:(lia) Hl) as Hlow.
    replace (d - 1 - (d - 53)) with 52 in Hlow by lia. lia.
Qed.

Lemma round_core_pos m e l :
  0 < m -> -1074 <= Zdigits2 m + e - 53 -> 0 < fst (round_core m e l).
Proof.
  intros Hm Hu. unfold round_core.
  pose proof (shr_fexp64_pos m e l Hm Hu) as Hp.
  pose proof (round_stage_no_underflow m e l Hm Hu) as Hu2. cbv zeta in Hu2.
  pose proof (round_nearest_even_bounds (shr_m (fst (shr_fexp64 m e l)))
                (loc_of_shr_record (fst (shr_fexp64 m e l)))) as Hr.
  destruct (shr_fexp64 m e l) as [mrs' e']. cbn [fst snd] in *.
  set (m1 := round_nearest_even (shr_m mrs') (loc_of_shr_record mrs')) in *.
  pose proof (shr_fexp64_pos m1 e' loc_Exact ltac:(lia) Hu2) as Hp2.
  destruct (shr_fexp64 m1 e' loc_Exact) as [mrs'' e'']. exact Hp2.
Qed.

(** *** Conversion of integers *)

Lemma of_int_spec z :
  0 <= z < 2 ^ 63 -> Prim2SF (of_int z) = normalize64 z 0 false.
Proof.
  intros Hz. unfold of_int.
  destruct (Z.ltb_spec z 0) as [H | _]; [lia |].
  rewrite of_uint63_spec, Uint63.of_Z_spec.
  rewrite Z.mod_small; [reflexivity |]. exact Hz.
Qed.

(** The conversion of a positive [int64] is a positive finite number with
    a small exponent. *)
Lemma normalize64_pos_shape z :
  0 < z < 2 ^ 63 ->
  exists m e, normalize64 z 0 false = S754_finite false m e /\ -52 <= e <= 11.
Proof.
  intros Hz. destruct z as [| p | p]; try lia.
  cbn [binary_normalize]. rewrite round64_core.
  pose proof (digits2_pos_bounds p) as Hdp.
  assert (Hd : 1 <= Zpos (digits2_pos p) <= 63).
  { split; [lia |]. change (Zpos (digits2_pos p)) with (Zdigits2 (Zpos p)).
    apply Zdigits2_le; lia. }
  destruct (shl_align_value p 0 (fexp64 (Zpos (digits2_pos p) + 0))) as [Hv He].
  set (mz := fst (shl_align p 0 _)) in *. set (ez := snd (shl_align p 0 _)) in *.
  rewrite fexp64_value in Hv, He.
  assert (Hdz : Zdigits2 (Zpos mz) = Zpos (digits2_pos p) + Z.max (0 - Z.max (Zpos (digits2_pos p) + 0 - 53) (-1074)) 0).
  { rewrite Hv. rewrite Zdigits2_mul_pow2 by lia. reflexivity. }
  pose proof (round_core_bounds (Zpos mz) ez loc_Exact ltac:(lia)) as [_ Hb].
  pose proof (round_core_pos (Zpos mz) ez loc_Exact ltac:(lia)) as Hp.
  rewrite fexp64_value in Hb.
  destruct (round_core (Zpos mz) ez loc_Exact) as [m2 e2]. cbn [fst snd] in *.
  pose proof (round_finish_shape false m2 e2 ltac:(lia)) as Hs.
  destruct (round_finish false (m2, e2)) as [s' | s' | | s' m' e'].
  - lia.
  - lia.
  - contradiction.
  - destruct Hs as (-> & _ & -> & _). exists m', e2. split; [reflexivity | lia].
Qed.

Lemma of_int_shape z :
  0 <= z < 2 ^ 63 ->
  Prim2SF (of_int z) = S754_zero false
  \/ exists m e, Prim2SF (of_int z) = S754_finite false m e
                 /\ Zpos (digits2_pos m) = 53 /\ -52 <= e <= 11.
Proof.
  intros Hz. destruct (Z.eqb_spec z 0) as [-> | Hnz]; [left; reflexivity |].
  right. pose proof (Prim2SF_valid (of_int z)) as Hv.
  rewrite of_int_spec in * by exact Hz.
  destruct (normalize64_pos_shape z ltac:(lia)) as (m & e & E & He).
  rewrite E in *. exists m, e. repeat split; try lia; try reflexivity.
  apply valid_finite_bounds in Hv. lia.
Qed.

(** *** The argument of the cosine in [hann] and in [hannpoisson] *)


Lemma SFdiv_core_shift m1 e1 m2 e2 :
  SFdiv_core_binary prec emax m1 (e1 + 1) m2 e2
  = SFdiv_core_binary prec emax m1 e1 m2 (e2 - 1).
Proof.
  unfold SFdiv_core_binary.
  replace (Zdigits2 m1 + (e1 + 1) - (Zdigits2 m2 + e2))
    with (Zdigits2 m1 + e1 - (Zdigits2 m2 + (e2 - 1))) by lia.
  replace (e1 + 1 - e2) with (e1 - (e2 - 1)) by lia.
  reflexivity.
Qed.

(** Doubling the dividend or halving the divisor gives the same quotient. *)
Lemma SF64div_double_or_halve (P E : spec_float) :
  match E with
  | S754_finite _ m e => Zpos (digits2_pos m) = 53 /\ -1072 <= e <= 972
  | _ => True
  end ->
  match P with S754_finite _ _ e => e + 1 <= 971 | _ => True end ->
  SF64div (lift_exp 1 P) E = SF64div P (SF64div E SF_two).
Proof.
  intros HE HP.
  assert (HL : lift_exp 1 P
               = match P with
                 | S754_finite s m e => S754_finite s m (e + 1)
                 | _ => P
                 end).
  { destruct P as [sP | sP | | sP mP eP]; try reflexivity.
    cbn [lift_exp]. change (emax - prec) with 971.
    now destruct (Z.leb_spec (eP + 1) 971); [| lia]. }
  rewrite HL. clear HL HP.
  destruct E as [sE | sE | | sE mE eE].
  - destruct sE, P as [[|] | [|] | | [|] mP eP]; reflexivity.
  - destruct sE, P as [[|] | [|] | | [|] mP eP]; reflexivity.
  - destruct P as [[|] | [|] | | [|] mP eP]; reflexivity.
  - destruct HE as [Hd He]. rewrite SF64div_two_normal by assumption.
    destruct P as [sP | sP | | sP mP eP]; try reflexivity.
    unfold SF64div, SFdiv. now rewrite SFdiv_core_shift.
Qed.

Lemma harmonic_two_half (k N : Z) :
  0 <= k < 2 ^ 63 -> 0 <= N < 2 ^ 63 ->
  (2 * Fl.pi * of_int k / of_int N
   = Fl.pi * of_int k / (of_int N / 2))%float.
Proof.
  intros Hk HN. apply Prim2SF_inj.
  rewrite !FloatAxioms.div_spec, !FloatAxioms.mul_spec.
  change (SF64mul (Prim2SF 2) (Prim2SF Fl.pi))
    with (S754_finite false 7074237752028440 (-50)).
  change (Prim2SF Fl.pi) with (S754_finite false 7074237752028440 (-51)).
  change (Prim2SF 2) with SF_two.
  set (P := SF64mul (S754_finite false 7074237752028440 (-51)) (Prim2SF (of_int k))).
  assert (HP : SF64mul (S754_finite false 7074237752028440 (-50)) (Prim2SF (of_int k))
               = lift_exp 1 P
               /\ match P with S754_finite _ _ e => e + 1 <= 971 | _ => True end).
  { unfold P. destruct (of_int_shape k Hk) as [-> | (m & e & -> & Hd & He)].
    - split; [reflexivity | exact I].
    - unfold SF64mul, SFmul. cbn [xorb].
      replace (-50 + e) with (-51 + e + 1) by lia.
      set (M := Zpos (7074237752028440 * m)).
      assert (HM : 0 < M) by (unfold M; lia).
      split.
      + apply bra64_shift; [exact HM | | lia].
        pose proof (Zdigits2_nonneg M). lia.
      + rewrite bra64_core.
        pose proof (round_core_bounds M (-51 + e) loc_Exact ltac:(lia)) as [H0 Hb].
        assert (HdM : Zdigits2 M <= 106).
        { apply Zdigits2_le; [lia |]. split; [lia |]. unfold M.
          rewrite Pos2Z.inj_mul.
          pose proof (digits2_pos_bounds m) as [_ Hu]. rewrite Hd in Hu.
          change (2 ^ 106) with (2 ^ 53 * 2 ^ 53). nia. }
        rewrite fexp64_value in Hb.
        destruct (round_core M (-51 + e) loc_Exact) as [m2 e2]. cbn [fst snd] in *.
        pose proof (round_finish_shape false m2 e2 H0) as Hs.
        destruct (round_finish false (m2, e2)); try exact I. lia. }
  destruct HP as [-> HP].
  apply SF64div_double_or_halve; [| exact HP].
  destruct (of_int_shape N HN) as [-> | (m & e & -> & Hd & He)]; [exact I |].
  split; [exact Hd | lia].
Qed.

(** *** Absorption of a small term *)

(** Rounding of a record: up when the round bit is set and either the
    sticky bit is set or the mantissa is odd. *)
Lemma round_record q r s :
  round_nearest_even q (loc_of_shr_record (Build_shr_record q r s))
  = if r then (if s then q + 1 else if Z.even q then q else q + 1) else q.
Proof. destruct r, s; reflexivity. Qed.

(** The first stage of the rounding of an exact mantissa shifted by [k > 0]. *)
Lemma round_core_first_stage m e :
  0 < m ->
  let k := Zdigits2 m - 53 in
  0 < k -> -1074 <= e + k ->
  round_core m e loc_Exact
  = let q := m / 2 ^ k in
    let m1 :=
      if Z.odd (m / 2 ^ (k - 1))
      then (if nonzero (m mod 2 ^ (k - 1)) then q + 1
            else if Z.even q then q else q + 1)
      else q in
    let '(mrs, e') := shr_fexp64 m1 (e + k) loc_Exact in
    (shr_m mrs, e').
Proof.
  intros Hm k Hk He. unfold round_core. unfold shr_fexp at 1.
  rewrite fexp64_value.
  replace (Z.max (Zdigits2 m + e - 53) (-1074) - e) with k by (unfold k; lia).
  cbn [shr_record_of_loc]. rewrite shr_spec by lia.
  rewrite round_record. reflexivity.
Qed.

Lemma shr_fexp64_stay (m : positive) e :
  Zpos (digits2_pos m) = 53 -> -1074 <= e ->
  shr_fexp64 (Zpos m) e loc_Exact = (Build_shr_record (Zpos m) false false, e).
Proof.
  intros Hd He. unfold shr_fexp. cbn [Zdigits2]. rewrite Hd, fexp64_value.
  now rewrite shr_nonpos by lia.
Qed.

(** A 53-bit mantissa [mx] scaled by [2^g], plus a term [t] smaller than a
    quarter of the last place, rounds back to [mx]. *)
Lemma round_core_absorb (mx : positive) (g e t : Z) :
  Zpos (digits2_pos mx) = 53 ->
  2 <= g -> - 2 ^ (g - 2) < t < 2 ^ (g - 2) ->
  -1074 <= e + g - 1 ->
  round_core (Zpos mx * 2 ^ g + t) e loc_Exact = (Zpos mx, e + g).
Proof.
  intros Hd Hg Ht He.
  pose proof (digits2_pos_bounds mx) as [Hl Hu]. rewrite Hd in Hl, Hu.
  change (2 ^ (53 - 1)) with 4503599627370496 in Hl.
  change (2 ^ 53) with 9007199254740992 in Hu.
  pose proof (Z.pow_pos_nonneg 2 (g - 2) ltac:(lia) ltac:(lia)) as Hu0.
  set (u := 2 ^ (g - 2)) in *.
  assert (E1 : 2 ^ (g - 1) = 2 * u)
    by (unfold u; rewrite <- Z.pow_succ_r by lia; f_equal; lia).
  assert (E2 : 2 ^ g = 4 * u)
    by (replace g with (Z.succ (g - 1)) at 1 by lia;
        rewrite Z.pow_succ_r, E1 by lia; lia).
  set (z := Zpos mx * 2 ^ g + t).
  assert (Hz : 0 < z) by (unfold z; nia).
  destruct (Z.leb_spec 0 t) as [Ht0 | Ht0];
    [| destruct (Z.eqb_spec (Zpos mx) 4503599627370496) as [Hpow | Hpow]].
  - (* the term is added: the quotient is [mx], the remainder under a quarter *)
    assert (Hdz : Zdigits2 z = 53 + g).
    { apply Zdigits2_unique; [| exact Hz].
      replace (53 + g - 1) with (52 + g) by lia.
      rewrite !Z.pow_add_r, E2 by lia. unfold z. rewrite E2.
      change (2 ^ 52) with 4503599627370496.
      change (2 ^ 53) with 9007199254740992. nia. }
    rewrite round_core_first_stage; rewrite ?Hdz; try lia.
    replace (53 + g - 53) with g by lia.
    replace (z / 2 ^ g) with (Zpos mx)
      by (apply Z.div_unique with t; unfold z; lia).
    replace (z / 2 ^ (g - 1)) with (2 * Zpos mx)
      by (apply Z.div_unique with t; unfold z; lia).
    rewrite Z.odd_mul. cbn [Z.odd andb]. cbv zeta.
    now rewrite shr_fexp64_stay by (assumption || lia).
  - (* the term is subtracted from a power of two *)
    assert (Hdz : Zdigits2 z = 52 + g).
    { apply Zdigits2_unique; [| exact Hz].
      replace (52 + g - 1) with (51 + g) by lia.
      rewrite !Z.pow_add_r, E2 by lia. unfold z. rewrite E2, Hpow.
      change (2 ^ 52) with 4503599627370496.
      change (2 ^ 51) with 2251799813685248. nia. }
    rewrite round_core_first_stage; rewrite ?Hdz; try lia.
    replace (52 + g - 53) with (g - 1) by lia.
    replace (g - 1 - 1) with (g - 2) by lia. fold u. rewrite E1.
    replace (z / (2 * u)) with 9007199254740991
      by (apply Z.div_unique with (2 * u + t); unfold z; lia).
    replace (z / u) with 18014398509481983
      by (apply Z.div_unique with (u + t); unfold z; lia).
    replace (z mod u) with (u + t)
      by (apply Z.mod_unique with 18014398509481983; unfold z; lia).
    replace (nonzero (u + t)) with true
      by (unfold nonzero; destruct (Z.eqb_spec (u + t) 0); [lia | reflexivity]).
    cbn [Z.odd]. cbv zeta.
    change (9007199254740991 + 1) with 9007199254740992.
    unfold shr_fexp. change (Zdigits2 9007199254740992) with 54.
    rewrite fexp64_value.
    replace (Z.max (54 + (e + (g - 1)) - 53) (-1074) - (e + (g - 1))) with 1 by lia.
    cbn [shr_record_of_loc shr iter_pos shr_1 shr_m].
    rewrite Hpow. f_equal. lia.
  - (* the term is subtracted inside the binade *)
    assert (Hdz : Zdigits2 z = 53 + g).
    { apply Zdigits2_unique; [| exact Hz].
      replace (53 + g - 1) with (52 + g) by lia.
      rewrite !Z.pow_add_r, E2 by lia. unfold z. rewrite E2.
      change (2 ^ 52) with 4503599627370496.
      change (2 ^ 53) with 9007199254740992. nia. }
    rewrite round_core_first_stage; rewrite ?Hdz; try lia.
    replace (53 + g - 53) with g by lia.
    replace (z / 2 ^ g) with (Zpos mx - 1)
      by (apply Z.div_unique with (4 * u + t); unfold z; lia).
    replace (z / 2 ^ (g - 1)) with (2 * (Zpos mx - 1) + 1)
      by (apply Z.div_unique with (2 * u + t); unfold z; lia).
    replace (z mod 2 ^ (g - 1)) with (2 * u + t)
      by (apply Z.mod_unique with (2 * (Zpos mx - 1) + 1); unfold z; lia).
    replace (nonzero (2 * u + t)) with true
      by (unfold nonzero; destruct (Z.eqb_spec (2 * u + t) 0); [lia | reflexivity]).
    rewrite (Z.add_comm (2 * (Zpos mx - 1)) 1), Z.odd_add_mul_2.
    cbn [Z.odd]. cbv zeta.
    replace (Zpos mx - 1 + 1) with (Zpos mx) by lia.
    now rewrite shr_fexp64_stay by (assumption || lia).
Qed.

Lemma shl_align_noop m e e' : e <= e' -> shl_align m e e' = (m, e).
Proof.
  intros H. unfold shl_align. destruct (e' - e) eqn:E; try reflexivity. lia.
Qed.

Lemma round64_absorb sgn (p mx : positive) (g e t : Z) :
  Zpos p = Zpos mx * 2 ^ g + t ->
  Zpos (digits2_pos mx) = 53 ->
  2 <= g -> - 2 ^ (g - 2) < t < 2 ^ (g - 2) ->
  -1074 <= e + g - 1 -> e + g <= 971 ->
  round64 sgn p e = S754_finite sgn mx (e + g).
Proof.
  intros Hp Hd Hg Ht He Hmax. rewrite round64_core.
  assert (Hdp : 52 + g <= Zpos (digits2_pos p)).
  { change (Zpos (digits2_pos p)) with (Zdigits2 (Zpos p)).
    replace (52 + g) with (51 + g + 1) by lia. apply Zdigits2_ge; [lia |].
    pose proof (digits2_pos_bounds mx) as [Hl _]. rewrite Hd in Hl.
    change (2 ^ (53 - 1)) with 4503599627370496 in Hl.
    pose proof (Z.pow_pos_nonneg 2 (g - 2) ltac:(lia) ltac:(lia)) as Hu0.
    assert (E2 : 2 ^ g = 4 * 2 ^ (g - 2)).
    { replace g with (2 + (g - 2)) at 1 by lia. now rewrite Z.pow_add_r by lia. }
    rewrite Z.pow_add_r, Hp, E2 by lia.
    change (2 ^ 51) with 2251799813685248. nia. }
  rewrite shl_align_noop by (rewrite fexp64_value; lia).
  cbn [fst snd]. rewrite Hp, round_core_absorb by assumption.
  apply round_finish_finite. exact Hmax.
Qed.

(** The sum of a scaled 53-bit mantissa of either sign and a small term. *)
Lemma normalize64_absorb (neg : bool) (mx : positive) (g e t : Z) :
  Zpos (digits2_pos mx) = 53 ->
  2 <= g -> - 2 ^ (g - 2) < t < 2 ^ (g - 2) ->
  -1074 <= e + g - 1 -> e + g <= 971 ->
  normalize64 (cond_Zopp neg (Zpos mx * 2 ^ g) + t) e false
  = S754_finite neg mx (e + g).
Proof.
  intros Hd Hg Ht He Hmax.
  pose proof (Z.pow_pos_nonneg 2 (g - 2) ltac:(lia) ltac:(lia)) as Hu0.
  assert (E2 : 2 ^ g = 4 * 2 ^ (g - 2)).
  { replace g with (2 + (g - 2)) at 1 by lia. now rewrite Z.pow_add_r by lia. }
  destruct neg; cbn [cond_Zopp].
  - destruct (- (Zpos mx * 2 ^ g) + t) as [| p | p] eqn:E; try nia.
    cbn [binary_normalize].
    apply (round64_absorb true p mx g e (- t)); try assumption; lia.
  - destruct (Zpos mx * 2 ^ g + t) as [| p | p] eqn:E; try nia.
    cbn [binary_normalize].
    apply (round64_absorb false p mx g e t); try assumption; lia.
Qed.

(** Subtracting a number that is at most a quarter of the last place of a
    normal number leaves the normal number; subtracting the normal number
    from it gives the opposite. *)
Lemma SF64sub_absorb sx mx ex sy my ey :
  Zpos (digits2_pos mx) = 53 -> Zpos (digits2_pos my) <= 53 ->
  ey + 55 <= ex -> -1074 <= ey -> ex <= 971 ->
  SF64sub (S754_finite sx mx ex) (S754_finite sy my ey) = S754_finite sx mx ex
  /\ SF64sub (S754_finite sy my ey) (S754_finite sx mx ex)
     = S754_finite (negb sx) mx ex.
Proof.
  intros Hdx Hdy Hg Hey Hex.
  pose proof (digits2_pos_bounds my) as [_ Hmy].
  assert (Hmy' : Zpos my < 2 ^ (ex - ey - 2)).
  { eapply Z.lt_le_trans; [exact Hmy |]. apply Z.pow_le_mono_r; lia. }
  unfold SF64sub, SFsub.
  destruct (shl_align_value mx ex (Z.min ex ey)) as [Vx _].
  destruct (shl_align_value my ey (Z.min ex ey)) as [Vy _].
  destruct (shl_align_value mx ex (Z.min ey ex)) as [Vx' _].
  destruct (shl_align_value my ey (Z.min ey ex)) as [Vy' _].
  rewrite Vx, Vy, Vx', Vy'.
  replace (Z.min ex ey) with ey by lia. replace (Z.min ey ex) with ey by lia.
  replace (Z.max (ex - ey) 0) with (ex - ey) by lia.
  replace (Z.max (ey - ey) 0) with 0 by lia.
  rewrite Z.pow_0_r, Z.mul_1_r.
  split.
  - replace (cond_Zopp sx (Zpos mx * 2 ^ (ex - ey)) - cond_Zopp sy (Zpos my))
      with (cond_Zopp sx (Zpos mx * 2 ^ (ex - ey)) + - cond_Zopp sy (Zpos my)) by lia.
    rewrite normalize64_absorb; try assumption; try lia.
    + f_equal. lia.
    + destruct sy; cbn [cond_Zopp]; lia.
  - replace (cond_Zopp sy (Zpos my) - cond_Zopp sx (Zpos mx * 2 ^ (ex - ey)))
      with (cond_Zopp (negb sx) (Zpos mx * 2 ^ (ex - ey)) + cond_Zopp sy (Zpos my))
      by (destruct sx; cbn [cond_Zopp negb]; lia).
    rewrite normalize64_absorb; try assumption; try lia.
    + f_equal. lia.
    + destruct sy; cbn [cond_Zopp]; lia.
Qed.

(** *** The shape and the exponent of a rounded result *)

Lemma bra64_shape s m e l :
  0 <= m ->
  match bra64 s m e l with
  | S754_zero s' => s' = s
  | S754_finite s' _ e' =>
      s' = s /\ e <= e' <= Z.max e (fexp64 (Zdigits2 m + e)) + 1
  | S754_infinity s' => s' = s /\ 971 < Z.max e (fexp64 (Zdigits2 m + e)) + 1
  | S754_nan => False
  end.
Proof.
  intros Hm. rewrite bra64_core.
  pose proof (round_core_bounds m e l Hm) as [H0 Hb].
  destruct (round_core m e l) as [m2 e2]. cbn [fst snd] in *.
  pose proof (round_finish_shape s m2 e2 H0) as Hs.
  destruct (round_finish s (m2, e2)); intuition lia.
Qed.

Lemma round64_shape s p e :
  let f := fexp64 (Zpos (digits2_pos p) + e) in
  match round64 s p e with
  | S754_zero s' => s' = s
  | S754_finite s' _ e' => s' = s /\ Z.min e f <= e' <= Z.max e f + 1
  | S754_infinity s' => s' = s /\ 971 < Z.max e f + 1
  | S754_nan => False
  end.
Proof.
  intros f. unfold binary_round. fold f.
  destruct (shl_align_value p e f) as [Hv He].
  destruct (shl_align p e f) as [mz ez]. cbn [fst snd] in *.
  pose proof (bra64_shape s (Zpos mz) ez loc_Exact ltac:(lia)) as Hs.
  assert (Hd : Zdigits2 (Zpos mz) + ez = Zpos (digits2_pos p) + e).
  { rewrite Hv, Zdigits2_mul_pow2 by lia. cbn [Zdigits2]. lia. }
  rewrite Hd in Hs. fold f in Hs.
  destruct (bra64 s (Zpos mz) ez loc_Exact); intuition lia.
Qed.

(** Halving the result of a rounding at the next exponent gives the result
    of the rounding at this exponent. *)
Lemma round64_halve_back s p e :
  -1074 <= Zpos (digits2_pos p) + e - 53 ->
  Zpos (digits2_pos p) + e <= 1000 -> -1074 <= e <= 900 ->
  valid_binary (round64 s p (e + 1)) = true ->
  SF64mul SF_half (round64 s p (e + 1)) = round64 s p e.
Proof.
  intros Hu Hd He Hv. rewrite round64_shift in * by lia.
  pose proof (round64_shape s p e) as Hs. cbv zeta in Hs.
  rewrite fexp64_value in Hs.
  destruct (round64 s p e) as [s' | s' | | s' m' e'].
  - now destruct s'.
  - now destruct s'.
  - reflexivity.
  - cbn [lift_exp] in *. change (emax - prec) with 971 in *.
    destruct (Z.leb_spec (e' + 1) 971) as [_ | H]; [| lia].
    apply valid_finite_bounds in Hv.
    rewrite SF64mul_half_normal by lia. f_equal. lia.
Qed.

Lemma normalize64_halve_back z e :
  Z.abs z < 2 ^ 170 -> -1000 <= e <= 800 ->
  valid_binary (normalize64 z (e + 1) false) = true ->
  SF64mul SF_half (normalize64 z (e + 1) false) = normalize64 z e false.
Proof.
  intros Hz He Hv.
  destruct z as [| p | p]; [reflexivity | |]; cbn [binary_normalize] in *;
    (assert (Hd : 1 <= Zpos (digits2_pos p) <= 170);
     [ split; [lia |]; change (Zpos (digits2_pos p)) with (Zdigits2 (Zpos p));
       apply Zdigits2_le; lia
     | apply round64_halve_back; try assumption; lia ]).
Qed.

(** *** The two forms of the raised cosine *)

(** [0.5 - 0.5 * c] and [0.5 * (1 - c)] are the same binary64 value for
    every [c]. *)
Lemma SF64_half_minus_half_times (C : spec_float) :
  valid_binary C = true ->
  valid_binary (SF64mul SF_half C) = true ->
  valid_binary (SF64sub SF_one C) = true ->
  SF64sub SF_half (SF64mul SF_half C) = SF64mul SF_half (SF64sub SF_one C).
Proof.
  intros HC Hh Ho.
  destruct C as [[|] | [|] | | s m e]; try reflexivity.
  pose proof (valid_finite_bounds s m e HC) as (Hd & He & Hn).
  destruct (Z.leb_spec 3 e) as [Hbig | Hbig];
    [| destruct (Z.leb_spec e (-108)) as [Hsmall | Hsmall]].
  - (* |c| is large: 0.5 and 1 are absorbed *)
    rewrite SF64mul_half_normal by lia.
    destruct (SF64sub_absorb s m (e - 1) false 4503599627370496 (-53))
      as [_ ->]; try reflexivity; try lia.
    destruct (SF64sub_absorb s m e false 4503599627370496 (-52))
      as [_ ->]; try reflexivity; try lia.
    now rewrite SF64mul_half_normal by lia.
  - (* |c| is tiny: c and 0.5 * c are absorbed *)
    destruct (SF64sub_absorb false 4503599627370496 (-52) s m e)
      as [-> _]; try reflexivity; try lia.
    change (SF64mul SF_half (S754_finite false 4503599627370496 (-52))) with SF_half.
    pose proof (bra64_shape s (Zpos (4503599627370496 * m)) (-53 + e) loc_Exact
                  ltac:(lia)) as Hs.
    assert (HdM : Zdigits2 (Zpos (4503599627370496 * m)) <= 105).
    { apply Zdigits2_le; [lia |]. split; [lia |].
      rewrite Pos2Z.inj_mul.
      pose proof (digits2_pos_bounds m) as [_ Hu].
      assert (2 ^ Zpos (digits2_pos m) <= 2 ^ 53) by (apply Z.pow_le_mono_r; lia).
      change (2 ^ 105) with (4503599627370496 * 2 ^ 53). nia. }
    rewrite fexp64_value in Hs.
    unfold SF64mul, SFmul in Hh |- *. cbn [xorb] in Hh |- *.
    destruct (bra64 s (Zpos (4503599627370496 * m)) (-53 + e) loc_Exact)
      as [s' | s' | | s' m' e'].
    + reflexivity.
    + lia.
    + contradiction.
    + apply valid_finite_bounds in Hh.
      destruct (SF64sub_absorb false 4503599627370496 (-53) s' m' e')
        as [-> _]; try reflexivity; lia.
  - (* in between: the two subtractions round the same integer *)
    rewrite SF64mul_half_normal by lia.
    unfold SF64sub, SFsub in Ho |- *.
    replace (Z.min (-52) e) with (Z.min (-53) (e - 1) + 1) in * by lia.
    set (ez := Z.min (-53) (e - 1)) in *.
    replace (shl_align 4503599627370496 (-52) (ez + 1))
      with (shl_align 4503599627370496 (-53 + 1) (ez + 1)) in * by reflexivity.
    replace (shl_align m e (ez + 1))
      with (shl_align m (e - 1 + 1) (ez + 1)) in * by (f_equal; lia).
    rewrite !shl_align_shift in *. cbn [fst snd] in *.
    destruct (shl_align_value 4503599627370496 (-53) ez) as [V1 _].
    destruct (shl_align_value m (e - 1) ez) as [V2 _].
    set (X1 := Zpos (fst (shl_align 4503599627370496 (-53) ez))) in *.
    set (X2 := Zpos (fst (shl_align m (e - 1) ez))) in *.
    symmetry. apply normalize64_halve_back; [| unfold ez; lia | exact Ho].
    assert (B1 : 0 < X1 <= 2 ^ 108).
    { split; [unfold X1; lia |]. rewrite V1.
      assert (2 ^ Z.max (-53 - ez) 0 <= 2 ^ 56)
        by (apply Z.pow_le_mono_r; unfold ez; lia).
      change (2 ^ 108) with (4503599627370496 * 2 ^ 56). nia. }
    assert (B2 : 0 < X2 <= 2 ^ 164).
    { split; [unfold X2; lia |]. rewrite V2.
      assert (2 ^ Z.max (e - 1 - ez) 0 <= 2 ^ 111)
        by (apply Z.pow_le_mono_r; unfold ez; lia).
      pose proof (digits2_pos_bounds m) as [_ Hu].
      assert (2 ^ Zpos (digits2_pos m) <= 2 ^ 53) by (apply Z.pow_le_mono_r; lia).
      change (2 ^ 164) with (2 ^ 53 * 2 ^ 111).
      pose proof (Z.pow_pos_nonneg 2 (Z.max (e - 1 - ez) 0) ltac:(lia) ltac:(lia)).
      nia. }
    change (2 ^ 170) with (64 * 2 ^ 164).
    assert (2 ^ 108 <= 2 ^ 164) by (apply Z.pow_le_mono_r; lia).
    destruct s; cbn [cond_Zopp]; lia.
Qed.

Lemma half_minus_half_times (c : float) :
  (0.5 - 0.5 * c = 0.5 * (1 - c))%float.
Proof.
  apply Prim2SF_inj.
  pose proof (Prim2SF_valid c) as HC.
  pose proof (Prim2SF_valid (0.5 * c)) as Hh.
  pose proof (Prim2SF_valid (1 - c)) as Ho.
  rewrite FloatAxioms.mul_spec in Hh. rewrite FloatAxioms.sub_spec in Ho.
  rewrite FloatAxioms.sub_spec, !FloatAxioms.mul_spec, FloatAxioms.sub_spec.
  now apply SF64_half_minus_half_times.
Qed.

#[local] Open Scope float_scope.


(** ** Boxcar *)

(** C10. The symmetry flag of [boxcar] is ignored: for every [N >= 0] and any
    two flag values the two calls return the same sequence, the all-ones
    sequence of length [N]. *)
Theorem boxcar_ignores_sym (N : Z) (b1 b2 : bool) :
  (0 <= N)%Z ->
  boxcar N b1 = boxcar N b2 /\ boxcar N b1 = Ok (repeat 1 (Z.to_nat N)).
Proof.
  intros H. split; [reflexivity |].
  unfold boxcar, ones, full. now destruct (Z.ltb_spec N 0); [lia |].
Qed.

Lemma boxcar_ignores_sym_witness :
  boxcar 3 true = boxcar 3 false /\ boxcar 3 true = Ok [1; 1; 1].
Proof. apply (boxcar_ignores_sym 3 true false). lia. Defined.

(** ** [compare] *)

Section CompareFacts.
Import Compare.

Lemma plt_plot_same_length xs ys fig :
  length xs = length ys -> plt_plot xs ys fig = Ok (tt, fig ++ [Line xs ys]).
Proof. intros H. unfold plt_plot. now rewrite H, Nat.eqb_refl. Qed.

(** An exception of the test generator leaves [compare] before anything is
    drawn. *)
Lemma compare_propagates N wt wr sym fig e :
  wt N sym = Raise e -> compare N wt wr sym fig = Raise e.
Proof. intros H. unfold compare, andthen, lift. now rewrite H. Qed.

(** [compare] uses its two generators at [(N, sym)] and nowhere else. *)
Lemma compare_calls_at_N_sym N wt wt' wr wr' sym fig :
  wt N sym = wt' N sym -> wr N sym = wr' N sym ->
  compare N wt wr sym fig = compare N wt' wr' sym fig.
Proof. intros Ht Hr. unfold compare, andthen, lift. now rewrite Ht, Hr. Qed.

(** A test sequence that does not have one sample per index is refused by
    [plt.plot]. *)
Lemma compare_rejects_wrong_length N wt wr sym fig test :
  wt N sym = Ok test -> length test <> Z.to_nat N ->
  compare N wt wr sym fig = Raise ValueError.
Proof.
  intros H L. unfold compare, andthen, lift, plt_plot. rewrite H.
  rewrite arange_length.
  destruct (Nat.eqb_spec (Z.to_nat N) (length test)); [congruence | reflexivity].
Qed.

End CompareFacts.

(** C9. [compare] calls both generators at the same [(N, sym)] and returns
    the pair of their results, the test sequence first.  The generators are
    window generators: each returns a sequence of [max(N, 0)] samples, which
    is what [plt.plot] needs to draw it against the [N] sample indices.  The
    figure receives the two lines, test first, then the legend and the axis
    labels. *)
Theorem compare_returns_pair
  (N : Z) (windowTest windowReference : Compare.window) (sym : bool)
  (test reference : list float) (fig : Compare.figure) :
  windowTest N sym = Ok test ->
  windowReference N sym = Ok reference ->
  length test = Z.to_nat N ->
  length reference = Z.to_nat N ->
  Compare.compare N windowTest windowReference sym fig
  = Ok ((test, reference),
        fig ++ [Compare.Line (arange N) test;
                Compare.Line (arange N) reference;
                Compare.Legend ["Test"; "Reference"]%string;
                Compare.XLabel "$n$"; Compare.YLabel "w[n]"]).
Proof.
  intros Ht Hr Lt Lr.
  unfold Compare.compare, Compare.andthen, Compare.lift.
  rewrite Ht, Hr.
  rewrite !plt_plot_same_length by (now rewrite arange_length).
  unfold Compare.plt_legend, Compare.plt_xlabel, Compare.plt_ylabel, Compare.pure.
  now rewrite <- !app_assoc.
Qed.

Lemma compare_returns_pair_witness :
  Compare.compare 3 boxcar (welch) true []
  = Ok (([1; 1; 1], [0.88888888888888884; 0.88888888888888884; 0]),
        [] ++ [Compare.Line (arange 3) [1; 1; 1];
               Compare.Line (arange 3) [0.88888888888888884; 0.88888888888888884; 0];
               Compare.Legend ["Test"; "Reference"]%string;
               Compare.XLabel "$n$"; Compare.YLabel "w[n]"]).
Proof.
  apply (compare_returns_pair 3 boxcar welch true); reflexivity.
Defined.

(** ** Lanczos *)

Section LanczosFacts.
Variable np_sin : float -> float.

Lemma lanczos_periodic_value (N : Z) :
  (1 <= N)%Z ->
  lanczos np_sin N false
  = Ok (set_nth
          (map (fun x => np_sin x / (x + 1e-12))
             (map (fun k => Fl.pi * (of_int (2 * k) / of_int N - 1)) (arange N)))
          (Z.to_nat (N / 2)) 1).
Proof.
  intros H. unfold lanczos, effective.
  apply setitem_inbounds.
  rewrite !length_map, arange_length, Z2Nat.id by lia.
  split; [apply Z.div_pos; lia | apply Z.div_lt_upper_bound; lia].
Qed.

(** Whatever the flag, a Lanczos window of length zero or less is not
    returned: the write to the centre tap is out of bounds. *)
Lemma lanczos_empty_raises (N : Z) (sym : bool) :
  (N <= 0)%Z -> lanczos np_sin N sym = Raise IndexError.
Proof.
  intros H. unfold lanczos. rewrite (arange_nil N H). apply setitem_nil.
Qed.

End LanczosFacts.

(** C4. For the Lanczos window in periodic mode and any [N >= 1] the call
    returns, and the sample at index [N // 2] is exactly [1.0]: it is written
    after the sinc has been evaluated, whatever value the sinc had there. *)
Theorem lanczos_center_tap (np_sin : float -> float) (N : Z) :
  (1 <= N)%Z ->
  exists w, lanczos np_sin N false = Ok w
            /\ nth_error w (Z.to_nat (N / 2)) = Some 1.
Proof.
  intros H. eexists. split; [apply lanczos_periodic_value; exact H |].
  apply set_nth_lookup.
  rewrite !length_map, arange_length.
  apply Z2Nat.inj_lt; [apply Z.div_pos; lia | lia | apply Z.div_lt_upper_bound; lia].
Qed.

Lemma lanczos_center_tap_witness :
  exists w, lanczos RefLibm.sin 5 false = Ok w
            /\ nth_error w (Z.to_nat (5 / 2)) = Some 1.
Proof. apply (lanczos_center_tap RefLibm.sin 5). lia. Defined.

(** ** Degenerate lengths *)

(** C1. The docstrings promise an empty array for [N <= 0].  [lanczos(0)]
    raises [IndexError] for either flag (the array is empty and index
    [0 // 2] or [-1 // 2] does not exist), and [boxcar(-1)] and [parzen(-1)]
    raise [ValueError] ([np.ones] and [np.zeros] refuse a negative
    dimension). *)
Theorem zero_length_not_empty_sequence
  (np_sin : float -> float) (np_power : float -> float -> float) (sym : bool) :
  lanczos np_sin 0 sym = Raise IndexError
  /\ boxcar (-1) sym = Raise ValueError
  /\ parzen np_power (-1) sym = Raise ValueError.
Proof.
  split; [apply lanczos_empty_raises; lia |]. split; reflexivity.
Qed.

(** C5. Some calls do raise.  [bartlett] divides the Python scalar [2.0] by
    the adjusted length, so [bartlett(0)] and [bartlett(1, sym=True)] raise
    [ZeroDivisionError]; [kaiserbessel(N)] with its default [sym=None] raises
    [TypeError] for every [N]. *)
Theorem degenerate_calls_raise
  (np_sin np_cos np_exp : float -> float) (np_power : float -> float -> float)
  (N : Z) :
  bartlett 0 false = Raise ZeroDivisionError
  /\ bartlett 1 true = Raise ZeroDivisionError
  /\ kaiserbessel np_cos N None = Raise TypeError
  /\ generate_default np_sin np_cos np_exp np_power Kaiserbessel N
     = Raise TypeError.
Proof. repeat split. Qed.

(** ** Symmetric mode *)

(** C3. The symmetric Welch window of length 2 is [[1.0, 0.0]]: its two
    samples differ by 1, far more than the tolerance [1e-9].  At length 3 the
    symmetric window is not a palindrome either, while the periodic window
    is one. *)
Theorem welch_symmetric_not_palindrome :
  welch 2 true = Ok [1; 0]
  /\ Fl.allclose 1e-9 [1; 0] (rev [1; 0]) = false
  /\ welch 3 true = Ok [0.88888888888888884; 0.88888888888888884; 0]
  /\ welch 3 false = Ok [0.75; 1; 0.75].
Proof. repeat split. Qed.

(** ** Periodic and symmetric mode *)

Section ModeFacts.
Variable np_sin np_cos np_exp : float -> float.
Variable np_power : float -> float -> float.

Local Abbreviation generate := (Window.generate np_sin np_cos np_exp np_power).

(** Both length adjustments agree between a periodic window of length [N]
    and a symmetric window of length [N + 1]. *)
Lemma effective_shift N : effective (N + 1) true = effective N false.
Proof. unfold effective. lia. Qed.

Lemma minus_bool_shift N : minus_bool (N + 1) true = minus_bool N false.
Proof. unfold minus_bool. lia. Qed.

Lemma half_length_shift N : half_length (N + 1) true = half_length N false.
Proof. unfold half_length. now rewrite effective_shift. Qed.

(** Every generator returns [max(N, 0)] samples when it returns. *)
Lemma generate_length f N sym shape w :
  generate f N sym shape = Ok w -> length w = Z.to_nat N.
Proof.
  destruct f; cbn [Window.generate];
    unfold boxcar, bartlett, barthann, parzen, welch, cosine, bohman, lanczos,
      hann, hamming, blackman, blackmanharris, blackmannuttall, kaiserbessel,
      flattop, exponential, gaussian, hannpoisson, tukey, ones, zeros;
    intros H;
    try (injection H as <-; now rewrite ?setmask_length, length_map, arange_length).
  - now apply full_length in H.
  - destruct (pydiv _ _); [| discriminate]. cbn in H. injection H as <-.
    now rewrite length_map, arange_length.
  - destruct (full 0 N) as [w0 |] eqn:E; [| discriminate]. cbn in H.
    injection H as <-. rewrite !setmask_values_length. now apply full_length in E.
  - apply setitem_length in H. now rewrite H, !length_map, arange_length.
Qed.

(** The relation between the two modes, for every call that returns. *)
Lemma periodic_prefix f N shape w :
  generate f N false shape = Ok w ->
  exists w', generate f (N + 1) true shape = Ok w'
             /\ w = firstn (Z.to_nat N) w'.
Proof.
  destruct f; cbn [Window.generate];
    unfold boxcar, bartlett, barthann, parzen, welch, cosine, bohman, lanczos,
      hann, hamming, blackman, blackmanharris, blackmannuttall, kaiserbessel,
      flattop, exponential, gaussian, hannpoisson, tukey, ones, zeros;
    rewrite ?effective_shift, ?minus_bool_shift, ?half_length_shift;
    intros H;
    try (injection H as <-; eexists; split; [reflexivity |];
         now rewrite ?setmask_firstn, ?map_arange_prefix).
  - (* boxcar *) now apply full_prefix.
  - (* bartlett *)
    destruct (pydiv _ _) as [scale |]; [| discriminate]. cbn in *.
    injection H as <-. eexists; split; [reflexivity |].
    now rewrite map_arange_prefix.
  - (* parzen *)
    destruct (full 0 N) as [w0 |] eqn:E; [| discriminate]. cbn in H.
    injection H as <-.
    destruct (full_prefix _ _ _ E) as (w0' & -> & ->). cbn.
    eexists; split; [reflexivity |].
    unfold arange_float.
    now rewrite !setmask_values_firstn, !firstn_map, arange_prefix.
  - (* welch *)
    injection H as <-. eexists; split; [reflexivity |].
    replace (N + 1 - 1)%Z with (N - 1 + 1)%Z by lia.
    now rewrite !minus_bool_shift, map_arange_prefix.
  - (* cosine *)
    injection H as <-. eexists; split; [reflexivity |].
    replace (N + 1 + 0)%Z with (N + 1)%Z by lia.
    now rewrite map_arange_prefix.
  - (* lanczos *)
    unfold effective in *.
    destruct (Z.leb_spec N 0) as [H0 | H0].
    + rewrite (arange_nil N H0), setitem_nil in H. discriminate.
    + assert (Hc : (0 <= N / 2 < N)%Z)
        by (split; [apply Z.div_pos; lia | apply Z.div_lt_upper_bound; lia]).
      rewrite setitem_inbounds in H
        by (rewrite !length_map, arange_length, Z2Nat.id; lia).
      injection H as <-.
      rewrite setitem_inbounds
        by (rewrite !length_map, arange_length, Z2Nat.id; lia).
      eexists; split; [reflexivity |].
      rewrite set_nth_firstn by (apply Z2Nat.inj_lt; lia).
      now rewrite !firstn_map, arange_prefix.
Qed.

End ModeFacts.

(** ** Tukey with [alpha = 0] *)

Section TukeyFacts.
Variable np_cos : float -> float.

(** No magnitude is below [0 * c], whatever [c] is: the product is a zero
    or NaN, and neither is greater than a magnitude. *)
Lemma abs_not_below_zero_times (x c : float) : (abs x <? 0 * c) = false.
Proof.
  rewrite FloatAxioms.ltb_spec, FloatAxioms.abs_spec, FloatAxioms.mul_spec.
  change (Prim2SF 0) with (S754_zero false).
  destruct (Prim2SF c) as [[|] | [|] | | [|] m e];
    destruct (Prim2SF x) as [[|] | [|] | | [|] m' e']; reflexivity.
Qed.

Lemma tukey_flat_empty (c : float) (k : Z) : tukey_flat c 0 k = false.
Proof. apply abs_not_below_zero_times. Qed.

(** With [alpha = 0] the mask selects nothing and the window is the taper
    formula at every sample. *)
Lemma tukey_alpha0_is_taper (N : Z) (sym : bool) :
  tukey np_cos N sym 0
  = Ok (map (tukey_taper np_cos (half_length N sym) 0) (arange N)).
Proof.
  unfold tukey. f_equal. apply setmask_none.
  intros k _. apply tukey_flat_empty.
Qed.

(** The two samples of [tukey(2, False, alpha=0)], for any cosine with
    [cos(0.0) = 1.0] and [cos(np.pi) = -1.0] (the values numpy returns). *)
Lemma tukey_alpha0_two :
  np_cos 0 = 1 -> np_cos Fl.pi = (-1) ->
  tukey np_cos 2 false 0 = Ok [0; 1].
Proof.
  intros H0 Hpi. rewrite tukey_alpha0_is_taper.
  change (arange 2) with [0%Z; 1%Z]. cbn [map]. unfold tukey_taper.
  eval_float_args np_cos. unfold Fl.pi in Hpi.
  now rewrite H0, Hpi.
Qed.

End TukeyFacts.

(** C6, as the code has it.  With [alpha = 0] the flat region
    [|n - center| < alpha * radius] is empty, so no sample is overwritten and
    [tukey(N, False, alpha=0)] is the taper formula
    [0.5 (1 + cos(pi (|n - c| - 0 c) / ((1 - 0) c)))] at every sample, for
    every [N]; the mask is false at every index. *)
Theorem tukey_alpha0_flat_region_empty (np_cos : float -> float) (N : Z) :
  tukey np_cos N false 0
  = Ok (map (tukey_taper np_cos (half_length N false) 0) (arange N))
  /\ forall k, tukey_flat (half_length N false) 0 k = false.
Proof.
  split; [apply tukey_alpha0_is_taper | intros k; apply tukey_flat_empty].
Qed.

(** C6, the claim as stated, fails at [N = 2]: the first sample of
    [tukey(2, False, alpha=0)] is [0.5 * (1 + cos(pi)) = 0.0], not [1.0]. *)
Lemma tukey_alpha0_not_boxcar :
  tukey RefLibm.cos 2 false 0 = Ok [0; 1]
  /\ boxcar 2 false = Ok [1; 1]
  /\ Fl.allclose 1e-9 [0; 1] [1; 1] = false.
Proof.
  split; [apply tukey_alpha0_two; reflexivity |]. split; reflexivity.
Qed.

(** ** Division by a zero length *)

Section ZeroLengthFacts.
Variable np_cos : float -> float.
Hypothesis cos_nan : np_cos nan = nan.

(** [h * pi * 0 / 0] is NaN. *)
Lemma harmonic_zero_over_zero :
  harmonic 2 0 0 = nan /\ harmonic 4 0 0 = nan
  /\ harmonic 6 0 0 = nan /\ harmonic 8 0 0 = nan.
Proof. repeat split. Qed.

Lemma hann_one_symmetric : hann np_cos 1 true = Ok [nan].
Proof.
  unfold hann. change (arange 1) with [0%Z]. cbn [map].
  eval_float_args np_cos.
  pose proof cos_nan as Hc. unfold nan in Hc. now rewrite Hc.
Qed.

Lemma cosine_term_one_symmetric np_sin np_exp np_power f shape :
  In f cosine_term_families ->
  generate np_sin np_cos np_exp np_power f 1 true shape = Ok [nan].
Proof.
  pose proof cos_nan as Hc. unfold nan in Hc.
  intros Hf. cbn in Hf.
  repeat (destruct Hf as [<- | Hf]; [
    cbn [generate];
    unfold barthann, hann, hamming, blackman, blackmanharris, blackmannuttall,
      kaiserbessel, flattop;
    change (arange 1) with [0%Z]; cbn [map];
    eval_float_args np_cos; rewrite Hc; reflexivity |]).
  contradiction.
Qed.

End ZeroLengthFacts.

(** C7, as the code has it.  The adjusted length is zero for [N == 1] in
    symmetric mode ([N - 1]), not in periodic mode.  There the quotient
    [2 pi n / 0] at [n = 0] is [0 / 0], a NaN; with a cosine that propagates
    NaN the only sample of the Hann window, and of every other cosine-term
    family, is NaN, which is not finite. *)
Theorem single_point_symmetric_is_nan
  (np_sin np_cos np_exp : float -> float) (np_power : float -> float -> float)
  (f : family) (shape : float) :
  np_cos nan = nan ->
  In f cosine_term_families ->
  effective 1 true = 0%Z
  /\ harmonic 2 0 (effective 1 true) = nan
  /\ generate np_sin np_cos np_exp np_power f 1 true shape = Ok [nan]
  /\ Fl.finite nan = false.
Proof.
  intros Hc Hf. repeat split. now apply cosine_term_one_symmetric.
Qed.

Lemma single_point_symmetric_is_nan_witness :
  effective 1 true = 0%Z
  /\ harmonic 2 0 (effective 1 true) = nan
  /\ generate RefLibm.sin RefLibm.cos RefLibm.exp RefLibm.power Hann 1 true 0
     = Ok [nan]
  /\ Fl.finite nan = false.
Proof.
  apply (single_point_symmetric_is_nan
           RefLibm.sin RefLibm.cos RefLibm.exp RefLibm.power Hann 0).
  - reflexivity.
  - cbn. tauto.
Defined.

(** C7, the claim as stated, fails: for [N == 1] in periodic mode the
    adjusted length of the Hann evaluator is 1, the quotient [2 pi 0 / 1] is
    the finite value [0.0], and the window is the finite sequence [[0.0]].
    No other length-derived divisor is zero there either, and with the
    default shape parameters every family returns finite samples. *)
Lemma single_point_periodic_is_finite :
  effective 1 false = 1%Z
  /\ harmonic 2 0 (effective 1 false) = 0
  /\ Fl.finite (harmonic 2 0 (effective 1 false)) = true
  /\ hann RefLibm.cos 1 false = Ok [0]
  /\ minus_bool 1 false = 1%Z
  /\ half_length 1 false = 0.5
  /\ forallb
       (fun f =>
          returns_finite
            (let shape := match default_shape f with Some a => a | None => 0 end in
             generate RefLibm.sin RefLibm.cos RefLibm.exp RefLibm.power
               f 1 false shape))
       catalog = true.
Proof. repeat split. Qed.

(** The conversion of a positive [int64] is not zero. *)
Lemma of_int_nonzero (N : Z) :
  (1 <= N < 2 ^ 63)%Z -> (of_int N =? 0) = false.
Proof.
  intros HN. rewrite FloatAxioms.eqb_spec.
  destruct (of_int_shape N ltac:(lia)) as [E | (m & e & -> & _)]; [| reflexivity].
  exfalso. rewrite of_int_spec in E by lia.
  destruct (normalize64_pos_shape N ltac:(lia)) as (m & e & E' & _).
  congruence.
Qed.

Section PeriodicReturns.
Variable np_sin np_cos np_exp : float -> float.
Variable np_power : float -> float -> float.

(** In periodic mode every generator returns for a length of at least one
    that fits the index type of numpy arrays. *)
Lemma periodic_returns f N shape :
  (1 <= N < 2 ^ 63)%Z ->
  exists w, generate np_sin np_cos np_exp np_power f N false shape = Ok w.
Proof.
  intros HN.
  destruct f; cbn [generate];
    unfold boxcar, bartlett, barthann, parzen, welch, cosine, bohman, lanczos,
      hann, hamming, blackman, blackmanharris, blackmannuttall, kaiserbessel,
      flattop, exponential, gaussian, hannpoisson, tukey, ones, zeros, full,
      effective;
    try (eexists; reflexivity).
  - destruct (Z.ltb_spec N 0); [lia | eexists; reflexivity].
  - unfold pydiv. rewrite of_int_nonzero by exact HN. eexists; reflexivity.
  - destruct (Z.ltb_spec N 0); [lia | eexists; reflexivity].
  - eexists. apply setitem_inbounds.
    rewrite !length_map, arange_length, Z2Nat.id by lia.
    split; [apply Z.div_pos; lia | apply Z.div_lt_upper_bound; lia].
Qed.

(** In either mode every generator returns for a length of at least two,
    whatever the shape parameter. *)
Lemma generate_returns f N sym shape :
  (2 <= N < 2 ^ 63)%Z ->
  exists w, generate np_sin np_cos np_exp np_power f N sym shape = Ok w.
Proof.
  intros HN.
  assert (HE : (1 <= effective N sym < 2 ^ 63)%Z)
    by (unfold effective; destruct sym; lia).
  assert (HE' : (effective N sym <= N)%Z)
    by (unfold effective; destruct sym; lia).
  destruct f; cbn [generate];
    unfold boxcar, bartlett, barthann, parzen, welch, cosine, bohman, lanczos,
      hann, hamming, blackman, blackmanharris, blackmannuttall, kaiserbessel,
      flattop, exponential, gaussian, hannpoisson, tukey, ones, zeros, full;
    try (eexists; reflexivity).
  - destruct (Z.ltb_spec N 0); [lia | eexists; reflexivity].
  - unfold pydiv. rewrite of_int_nonzero by exact HE. eexists; reflexivity.
  - destruct (Z.ltb_spec N 0); [lia | eexists; reflexivity].
  - eexists. apply setitem_inbounds.
    rewrite !length_map, arange_length, Z2Nat.id by lia.
    split; [apply Z.div_pos; lia | apply Z.div_lt_upper_bound; lia].
Qed.

End PeriodicReturns.

(** C2. For every family, the periodic window [generate(N, False)] is the
    sequence of the first [N] samples of the symmetric window
    [generate(N + 1, True)], sample for sample.  The periodic call returns
    for every length [N >= 1] (that fits numpy's index type), and whenever
    it returns, for any [N], the symmetric call returns too and the periodic
    window is its prefix. *)
Theorem periodic_is_prefix_of_symmetric
  (np_sin np_cos np_exp : float -> float) (np_power : float -> float -> float)
  (f : family) (N : Z) (shape : float) :
  ((1 <= N < 2 ^ 63)%Z ->
   exists w, generate np_sin np_cos np_exp np_power f N false shape = Ok w)
  /\ (forall w,
        generate np_sin np_cos np_exp np_power f N false shape = Ok w ->
        exists w',
          generate np_sin np_cos np_exp np_power f (N + 1) true shape = Ok w'
          /\ w = firstn (Z.to_nat N) w').
Proof.
  split.
  - apply periodic_returns.
  - intros w Hw.
    destruct (periodic_prefix _ _ _ _ _ _ _ _ Hw) as (w' & Hw' & Hp).
    exists w'. split; [exact Hw' | exact Hp].
Qed.

Lemma periodic_is_prefix_of_symmetric_witness :
  exists w w',
    generate RefLibm.sin RefLibm.cos RefLibm.exp RefLibm.power Welch 3 false 0
    = Ok w
    /\ generate RefLibm.sin RefLibm.cos RefLibm.exp RefLibm.power
         Welch (3 + 1) true 0 = Ok w'
    /\ w = firstn (Z.to_nat 3) w'.
Proof.
  destruct (periodic_is_prefix_of_symmetric
              RefLibm.sin RefLibm.cos RefLibm.exp RefLibm.power Welch 3 0)
    as [Hret Hpre].
  destruct Hret as [w Hw]; [lia |].
  destruct (Hpre w Hw) as (w' & Hw' & Hp).
  exists w, w'. repeat split; assumption.
Defined.

(** ** Hann-Poisson *)

Section HannPoissonFacts.
Variable np_cos np_exp : float -> float.

Lemma multiply_map {A} (f g : A -> float) (l : list A) :
  multiply (map f l) (map g l) = map (fun k => f k * g k) l.
Proof.
  unfold multiply. induction l as [| k l IH]; [reflexivity |].
  cbn. now rewrite IH.
Qed.

(** The Hann sample and the raised-cosine factor of the Hann-Poisson sample
    are the same binary64 value: the arguments of the cosine agree, and so do
    the two ways of writing [(1 - cos) / 2]. *)
Lemma hann_sample_forms (N : Z) (sym : bool) (k : Z) :
  (N < 2 ^ 63)%Z -> In k (arange N) ->
  0.50 - 0.50 * np_cos (harmonic 2 k (effective N sym))
  = 0.5 * (1 - np_cos (Fl.pi * of_int k / half_length N sym)).
Proof.
  intros HN Hk. apply arange_In in Hk.
  unfold harmonic, half_length.
  rewrite harmonic_two_half by (unfold effective; destruct sym; lia).
  apply half_minus_half_times.
Qed.

End HannPoissonFacts.

(** C8. For every flag, every [alpha] and every length [N] within the index
    type of numpy arrays ([N >= 0] in particular) the three calls return and
    the Hann-Poisson window is the elementwise product of the Hann window and
    the Exponential window of the same length and flag: every sample is the
    same binary64 value. *)
Theorem hannpoisson_is_product
  (np_cos np_exp : float -> float) (N : Z) (sym : bool) (alpha : float) :
  (N < 2 ^ 63)%Z ->
  exists h e,
    hann np_cos N sym = Ok h
    /\ exponential np_exp N sym alpha = Ok e
    /\ hannpoisson np_cos np_exp N sym alpha = Ok (multiply h e).
Proof.
  intros HN. eexists. eexists. split; [reflexivity |]. split; [reflexivity |].
  unfold hannpoisson. f_equal. rewrite multiply_map.
  apply map_ext_in. intros k Hk.
  now rewrite (hann_sample_forms np_cos N sym k) by (lia || assumption).
Qed.

Lemma hannpoisson_is_product_witness :
  exists h e,
    hann RefLibm.cos 4 true = Ok h
    /\ exponential RefLibm.exp 4 true 1.0 = Ok e
    /\ hannpoisson RefLibm.cos RefLibm.exp 4 true 1.0 = Ok (multiply h e).
Proof. apply (hannpoisson_is_product RefLibm.cos RefLibm.exp 4 true 1.0). lia. Defined.

(** * Further properties

    What the code shows beyond the statements above: exact values, mirror
    symmetry, the exceptions of every generator, and [compare] applied to the
    generators. *)

(** ** Exact binary64 arithmetic on sample indices

    An index, a length and half a length are exact binary64 values, and so
    is the difference of an index and half a length: the rounding in
    [n - N / 2] returns the exact result. *)

#[local] Open Scope Z_scope.

(** *** Exact sums *)

(** The sign of a rounded result is the sign it was given. *)
Lemma round_finish_opp s me :
  round_finish (negb s) me = SFopp (round_finish s me).
Proof.
  unfold round_finish. destruct (fst me); try reflexivity.
  now destruct (_ <=? _).
Qed.

Lemma bra64_opp s m e l : bra64 (negb s) m e l = SFopp (bra64 s m e l).
Proof. rewrite !bra64_core. apply round_finish_opp. Qed.

Lemma round64_opp s p e : round64 (negb s) p e = SFopp (round64 s p e).
Proof. rewrite !round64_core. apply round_finish_opp. Qed.

Lemma normalize64_opp z e :
  z <> 0 -> normalize64 (- z) e false = SFopp (normalize64 z e false).
Proof.
  intros Hz. destruct z as [| p | p]; [contradiction | |]; cbn [Z.opp binary_normalize].
  - apply (round64_opp false).
  - apply (round64_opp true).
Qed.

(** Rounding does not depend on how the exact value is split between the
    mantissa and the exponent, once the exponent is at or below the target. *)
Lemma round_core_scale m e h :
  0 < m -> 0 <= h -> 0 <= fexp64 (Zdigits2 m + e) - e ->
  round_core (m * 2 ^ h) (e - h) loc_Exact = round_core m e loc_Exact.
Proof.
  intros Hm Hh Hk.
  destruct (Z.eqb_spec h 0) as [-> | Hh0].
  { now rewrite Z.pow_0_r, Z.mul_1_r, Z.sub_0_r. }
  pose proof (Z.pow_pos_nonneg 2 h ltac:(lia) Hh) as Hp.
  unfold round_core, shr_fexp.
  rewrite Zdigits2_mul_pow2 by lia.
  replace (Zdigits2 m + h + (e - h)) with (Zdigits2 m + e) by lia.
  remember (fexp64 (Zdigits2 m + e) - e) as k eqn:Hkdef.
  replace (fexp64 (Zdigits2 m + e) - (e - h)) with (k + h) by lia.
  cbn [shr_record_of_loc].
  rewrite (shr_spec (m * 2 ^ h)) by nia.
  replace (e - h + (k + h)) with (e + k) by lia.
  assert (E1 : 2 ^ (k + h) = 2 ^ k * 2 ^ h) by (apply Z.pow_add_r; lia).
  pose proof (Z.pow_pos_nonneg 2 k ltac:(lia) Hk) as Hpk.
  replace (m * 2 ^ h / 2 ^ (k + h)) with (m / 2 ^ k)
    by (rewrite E1, Z.div_mul_cancel_r; lia).
  destruct (Z.eqb_spec k 0) as [Ek | Ek].
  - rewrite Ek in *. rewrite (shr_nonpos _ e 0) by lia.
    rewrite Z.pow_0_r, Z.div_1_r. cbn [Z.add].
    replace (0 + h - 1) with (h - 1) by lia.
    assert (E2 : 2 ^ h = 2 * 2 ^ (h - 1)).
    { rewrite <- Z.pow_succ_r by lia. f_equal. lia. }
    pose proof (Z.pow_pos_nonneg 2 (h - 1) ltac:(lia) ltac:(lia)).
    replace (m * 2 ^ h / 2 ^ (h - 1)) with (2 * m)
      by (rewrite E2; apply Z.div_unique with 0; lia).
    replace (m * 2 ^ h mod 2 ^ (h - 1)) with 0
      by (rewrite E2; apply Z.mod_unique with (2 * m); lia).
    rewrite Z.odd_mul. cbn [Z.odd andb nonzero Z.eqb negb].
    replace (e + 0) with e by lia. reflexivity.
  - rewrite (shr_spec m) by lia.
    replace (k + h - 1) with (k - 1 + h) by lia.
    assert (E3 : 2 ^ (k - 1 + h) = 2 ^ (k - 1) * 2 ^ h) by (apply Z.pow_add_r; lia).
    pose proof (Z.pow_pos_nonneg 2 (k - 1) ltac:(lia) ltac:(lia)).
    replace (m * 2 ^ h / 2 ^ (k - 1 + h)) with (m / 2 ^ (k - 1))
      by (rewrite E3, Z.div_mul_cancel_r; lia).
    replace (nonzero (m * 2 ^ h mod 2 ^ (k - 1 + h)))
      with (nonzero (m mod 2 ^ (k - 1))); [reflexivity |].
    rewrite E3, Z.mul_mod_distr_r by lia. unfold nonzero.
    destruct (Z.eqb_spec (m mod 2 ^ (k - 1)) 0) as [-> | Hn]; [reflexivity |].
    destruct (Z.eqb_spec (m mod 2 ^ (k - 1) * 2 ^ h) 0); [nia | reflexivity].
Qed.

Lemma round64_scale s (p p' : positive) g e :
  0 <= g -> Zpos p' = Zpos p * 2 ^ g ->
  round64 s p' (e - g) = round64 s p e.
Proof.
  intros Hg Hp'. rewrite !round64_core. f_equal.
  assert (Hd : Zpos (digits2_pos p') + (e - g) = Zpos (digits2_pos p) + e).
  { change (Zpos (digits2_pos p')) with (Zdigits2 (Zpos p')).
    rewrite Hp', Zdigits2_mul_pow2 by lia. cbn [Zdigits2]. lia. }
  rewrite Hd. set (f := fexp64 (Zpos (digits2_pos p) + e)).
  destruct (shl_align_value p' (e - g) f) as [V' E'].
  destruct (shl_align_value p e f) as [V E].
  rewrite V', E', V, E, Hp'.
  assert (Hdz : Zdigits2 (Zpos p * 2 ^ Z.max (e - f) 0) + Z.min e f
                = Zpos (digits2_pos p) + e).
  { rewrite Zdigits2_mul_pow2 by lia. cbn [Zdigits2]. lia. }
  pose proof (Z.pow_pos_nonneg 2 (Z.max (e - f) 0) ltac:(lia) ltac:(lia)) as Hp1.
  rewrite <- (round_core_scale (Zpos p * 2 ^ Z.max (e - f) 0) (Z.min e f)
                (Z.min e f - Z.min (e - g) f)); try lia.
  - f_equal; [| lia].
    rewrite <- !Z.mul_assoc, <- !Z.pow_add_r by lia. do 2 f_equal. lia.
  - rewrite Hdz. fold f. lia.
Qed.

Lemma normalize64_scale z g e :
  0 <= g -> normalize64 (z * 2 ^ g) (e - g) false = normalize64 z e false.
Proof.
  intros Hg. pose proof (Z.pow_pos_nonneg 2 g ltac:(lia) Hg) as Hp.
  destruct z as [| p | p]; [reflexivity | |].
  - destruct (Zpos p * 2 ^ g) as [| p' | p'] eqn:E; try lia.
    cbn [binary_normalize]. now apply round64_scale.
  - destruct (Zneg p * 2 ^ g) as [| p' | p'] eqn:E; try lia.
    cbn [binary_normalize]. apply round64_scale; [exact Hg | lia].
Qed.

(** A valid number is the rounding of its own mantissa and exponent. *)
Lemma round64_canonical s m e :
  valid_binary (S754_finite s m e) = true -> round64 s m e = S754_finite s m e.
Proof.
  intros Hv. cbn [SpecFloat.valid_binary] in Hv. unfold bounded, canonical_mantissa in Hv.
  apply andb_true_iff in Hv. destruct Hv as [Hc Hb].
  apply Z.eqb_eq in Hc. apply Z.leb_le in Hb.
  rewrite round64_core, Hc, shl_align_noop by lia. cbn [fst snd].
  unfold round_core, shr_fexp. cbn [Zdigits2 shr_record_of_loc]. rewrite Hc.
  rewrite shr_nonpos by lia.
  cbn [shr_m loc_of_shr_record round_nearest_even Zdigits2]. rewrite Hc.
  rewrite shr_nonpos by lia. cbn [shr_m].
  apply round_finish_finite. exact Hb.
Qed.

Lemma exact_normalize e0 x z :
  valid_binary x = true -> exact_at e0 x z -> x = normalize64 z e0 false.
Proof.
  intros Hv Hx. destruct x as [s | s | | s m e]; cbn [exact_at] in Hx; try contradiction.
  - destruct Hx as [-> ->]. reflexivity.
  - destruct Hx as [He ->].
    replace e0 with (e - (e - e0)) at 2 by lia.
    rewrite normalize64_scale by lia.
    destruct s; cbn [cond_Zopp Z.opp binary_normalize]; symmetry;
      now apply round64_canonical.
Qed.

(** The difference of two exact numbers is the rounding of the exact
    difference. *)
Lemma SF64sub_exact e0 x y zx zy :
  valid_binary x = true -> valid_binary y = true ->
  exact_at e0 x zx -> exact_at e0 y zy ->
  SF64sub x y = normalize64 (zx - zy) e0 false.
Proof.
  intros Hvx Hvy Hx Hy.
  destruct x as [sx | sx | | sx mx ex]; cbn [exact_at] in Hx; try contradiction;
    destruct y as [sy | sy | | sy my ey]; cbn [exact_at] in Hy; try contradiction.
  - destruct Hx as [-> ->], Hy as [-> ->]. reflexivity.
  - destruct Hx as [-> ->]. cbn [SF64sub SFsub].
    assert (Hy' : exact_at e0 (S754_finite (negb sy) my ey) (0 - zy)).
    { cbn [exact_at]. destruct Hy as [He ->]. split; [exact He |].
      destruct sy; cbn [cond_Zopp negb]; lia. }
    apply exact_normalize; [exact Hvy | exact Hy'].
  - destruct Hy as [-> ->]. cbn [SF64sub SFsub]. rewrite Z.sub_0_r.
    now apply exact_normalize.
  - destruct Hx as [Hex ->], Hy as [Hey ->].
    unfold SF64sub, SFsub.
    destruct (shl_align_value mx ex (Z.min ex ey)) as [Vx _].
    destruct (shl_align_value my ey (Z.min ex ey)) as [Vy _].
    rewrite Vx, Vy. set (ez := Z.min ex ey).
    replace e0 with (ez - (ez - e0)) at 3 by lia.
    rewrite <- (normalize64_scale _ (ez - e0) ez) by lia.
    f_equal.
    replace (Z.max (ex - ez) 0) with (ex - ez) by lia.
    replace (Z.max (ey - ez) 0) with (ey - ez) by lia.
    replace (ex - e0) with (ex - ez + (ez - e0)) by lia.
    replace (ey - e0) with (ey - ez + (ez - e0)) by lia.
    rewrite !Z.pow_add_r by lia.
    destruct sx, sy; cbn [cond_Zopp]; ring.
Qed.

Lemma exact_at_lower e0 e1 x z :
  e1 <= e0 -> exact_at e0 x z -> exact_at e1 x (z * 2 ^ (e0 - e1)).
Proof.
  intros He Hx. destruct x as [s | s | | s m e]; cbn [exact_at] in *;
    try contradiction.
  - destruct Hx as [-> ->]. split; [reflexivity | lia].
  - destruct Hx as [He0 ->]. split; [lia |].
    rewrite <- Z.mul_assoc, <- Z.pow_add_r by lia. do 2 f_equal. lia.
Qed.

(** The rounding of a mantissa of at most 53 bits is exact. *)
Lemma normalize64_small_exact (p : positive) :
  Zpos p < 2 ^ 53 ->
  exact_at (-52) (round64 false p 0) (Zpos p * 2 ^ 52).
Proof.
  intros Hp.
  assert (Hd : 1 <= Zpos (digits2_pos p) <= 53).
  { split; [lia |]. change (Zpos (digits2_pos p)) with (Zdigits2 (Zpos p)).
    apply Zdigits2_le; lia. }
  set (d := Zpos (digits2_pos p)) in *.
  assert (E : round64 false p 0 = round64 false p 0) by reflexivity.
  rewrite round64_core in E at 2.
  destruct (shl_align_value p 0 (fexp64 (Zpos (digits2_pos p) + 0))) as [V Ez].
  fold d in V, Ez, E. rewrite fexp64_value in V, Ez.
  replace (Z.max (0 - Z.max (d + 0 - 53) (-1074)) 0) with (53 - d) in V by lia.
  replace (Z.min 0 (Z.max (d + 0 - 53) (-1074))) with (d - 53) in Ez by lia.
  rewrite fexp64_value in E.
  set (mz := fst (shl_align p 0 (Z.max (d + 0 - 53) (-1074)))) in *.
  rewrite Ez in E.
  assert (Hdz : Zpos (digits2_pos mz) = 53).
  { change (Zpos (digits2_pos mz)) with (Zdigits2 (Zpos mz)).
    rewrite V, Zdigits2_mul_pow2 by lia. cbn [Zdigits2]. fold d. lia. }
  replace (Zpos mz) with (Zpos mz * 2 ^ 0) in E by (rewrite Z.pow_0_r; lia).
  rewrite round_core_exact in E by lia.
  rewrite round_finish_finite in E by lia.
  rewrite E. cbn [exact_at cond_Zopp]. split; [lia |].
  rewrite V. rewrite <- Z.mul_assoc, <- Z.pow_add_r by lia. do 2 f_equal. lia.
Qed.

Lemma of_int_exact (a : Z) :
  - 2 ^ 53 < a < 2 ^ 53 ->
  exact_at (-52) (Prim2SF (of_int a)) (a * 2 ^ 52).
Proof.
  intros Ha. unfold of_int. destruct (Z.ltb_spec a 0) as [Hneg | Hpos].
  - rewrite FloatAxioms.opp_spec, FloatAxioms.of_uint63_spec, Uint63.of_Z_spec.
    rewrite Z.mod_small by (change wB with (2 ^ 63); lia).
    destruct a as [| p | p]; try lia. cbn [Z.opp binary_normalize].
    pose proof (normalize64_small_exact p ltac:(lia)) as Hx.
    destruct (round64 false p 0) as [s | s | | s m e]; cbn [exact_at SFopp] in *;
      try contradiction.
    + destruct Hx as [_ Hx]. lia.
    + destruct Hx as [He Hx]. split; [exact He |].
      destruct s; cbn [cond_Zopp negb] in *; lia.
  - rewrite FloatAxioms.of_uint63_spec, Uint63.of_Z_spec.
    rewrite Z.mod_small by (change wB with (2 ^ 63); lia).
    destruct a as [| p | p]; try lia; cbn [binary_normalize].
    + cbn. auto.
    + apply normalize64_small_exact; lia.
Qed.

(** [of_int n / 2] is exactly [n / 2]. *)
Lemma half_of_int_exact (n : Z) :
  - 2 ^ 53 < n < 2 ^ 53 ->
  exact_at (-53) (Prim2SF (of_int n / 2)) (n * 2 ^ 52).
Proof.
  intros Hn. pose proof (of_int_exact n Hn) as Hx.
  pose proof (Prim2SF_valid (of_int n)) as Hv.
  rewrite FloatAxioms.div_spec. change (Prim2SF 2) with SF_two.
  destruct (Prim2SF (of_int n)) as [s | s | | s m e]; cbn [exact_at] in Hx;
    try contradiction.
  - destruct Hx as [-> Hx]. cbn. split; [reflexivity | lia].
  - destruct Hx as [He Hx]. apply valid_finite_bounds in Hv.
    rewrite SF64div_two_normal by lia. cbn [exact_at]. split; [lia |].
    rewrite Hx. do 2 f_equal. lia.
Qed.

(** A sample index minus the centre [n / 2] is the rounding of the exact
    difference. *)
Lemma centered_exact (a n : Z) :
  - 2 ^ 53 < a < 2 ^ 53 -> - 2 ^ 53 < n < 2 ^ 53 ->
  Prim2SF (of_int a - of_int n / 2)
  = normalize64 ((2 * a - n) * 2 ^ 52) (-53) false.
Proof.
  intros Ha Hn. rewrite FloatAxioms.sub_spec.
  rewrite (SF64sub_exact (-53) _ _ (a * 2 ^ 52 * 2 ^ (-52 - -53)) (n * 2 ^ 52));
    try apply Prim2SF_valid.
  - f_equal. change (2 ^ (-52 - -53)) with 2. ring.
  - apply exact_at_lower; [lia | now apply of_int_exact].
  - now apply half_of_int_exact.
Qed.

#[local] Open Scope float_scope.

(** Two indices at the same distance from the centre [n / 2], one on each
    side, give opposite differences (equal ones at the centre itself). *)
Lemma centered_reflect (a b n : Z) :
  (0 <= a)%Z -> (0 <= b)%Z -> (a + b = n)%Z -> (n < 2 ^ 53)%Z ->
  of_int b - of_int n / 2 = - (of_int a - of_int n / 2)
  \/ of_int b - of_int n / 2 = of_int a - of_int n / 2.
Proof.
  intros Ha Hb Hab Hn.
  destruct (Z.eqb_spec (2 * a) n) as [Hc | Hc].
  - right. f_equal. f_equal. lia.
  - left. apply Prim2SF_inj.
    rewrite FloatAxioms.opp_spec, !centered_exact by lia.
    rewrite <- normalize64_opp by lia. f_equal. lia.
Qed.

(** *** Signs *)

Lemma abs_opp (x : float) : abs (- x) = abs x.
Proof.
  apply Prim2SF_inj. rewrite !FloatAxioms.abs_spec, FloatAxioms.opp_spec.
  now destruct (Prim2SF x).
Qed.

(** The quotient of the opposite is the opposite of the quotient. *)
Lemma div_opp_l (x y : float) : (- x) / y = - (x / y).
Proof.
  apply Prim2SF_inj.
  rewrite FloatAxioms.opp_spec, !FloatAxioms.div_spec, FloatAxioms.opp_spec.
  destruct (Prim2SF x) as [sx | sx | | sx mx ex],
           (Prim2SF y) as [sy | sy | | sy my ey];
    cbn [SF64div SFdiv SFopp]; try reflexivity;
    try (now destruct sx, sy).
  unfold SF64div. cbn [SFdiv].
  destruct (SFdiv_core_binary _ _ _ _ _ _) as [[mz ez] lz].
  replace (xorb (negb sx) sy) with (negb (xorb sx sy)) by now destruct sx, sy.
  apply bra64_opp.
Qed.

Lemma square_opp (x : float) : square (- x) = square x.
Proof.
  unfold square. apply Prim2SF_inj.
  rewrite !FloatAxioms.mul_spec, FloatAxioms.opp_spec.
  destruct (Prim2SF x) as [s | s | | s m e]; cbn [SF64mul SFmul SFopp];
    try reflexivity; try (now destruct s).
Qed.

(** The magnitude of the distance to the centre [n / 2] is the same on both
    sides. *)
Lemma centered_abs (a b n : Z) :
  (0 <= a)%Z -> (0 <= b)%Z -> (a + b = n)%Z -> (n < 2 ^ 53)%Z ->
  abs (of_int b - of_int n / 2) = abs (of_int a - of_int n / 2).
Proof.
  intros Ha Hb Hab Hn.
  destruct (centered_reflect a b n Ha Hb Hab Hn) as [-> | ->];
    [apply abs_opp | reflexivity].
Qed.

Lemma centered_square_div (a b n : Z) (d : float) :
  (0 <= a)%Z -> (0 <= b)%Z -> (a + b = n)%Z -> (n < 2 ^ 53)%Z ->
  square ((of_int b - of_int n / 2) / d)
  = square ((of_int a - of_int n / 2) / d).
Proof.
  intros Ha Hb Hab Hn.
  destruct (centered_reflect a b n Ha Hb Hab Hn) as [-> | ->];
    [| reflexivity].
  rewrite div_opp_l. apply square_opp.
Qed.

(** *** Comparisons *)

Lemma SFcompare_antisym x y :
  SFcompare y x = option_map CompOpp (SFcompare x y).
Proof.
  destruct x as [sx | sx | | sx mx ex], y as [sy | sy | | sy my ey];
    cbn [SFcompare option_map]; try reflexivity;
    try (now destruct sx); try (now destruct sy); try (now destruct sx, sy).
  rewrite (Z.compare_antisym ey ex).
  destruct sx, sy; cbn [CompOpp]; try reflexivity;
    destruct (ey ?= ex)%Z; cbn [CompOpp]; try reflexivity.
  - now rewrite (Pos.compare_cont_antisym mx my Eq).
  - now rewrite (Pos.compare_cont_antisym mx my Eq).
Qed.

(** [x < y] and [y <= x] never both hold. *)
Lemma ltb_not_leb (x y : float) : (x <? y) = true -> (y <=? x) = false.
Proof.
  rewrite FloatAxioms.ltb_spec, FloatAxioms.leb_spec. unfold SFltb, SFleb.
  rewrite (SFcompare_antisym (Prim2SF x) (Prim2SF y)).
  now destruct (SFcompare (Prim2SF x) (Prim2SF y)) as [[| |] |].
Qed.

(** *** Quotients *)

(** A finite nonzero value divided by itself is exactly one. *)
Lemma SF64div_self s m e :
  SF64div (S754_finite s m e) (S754_finite s m e) = SF_one.
Proof.
  unfold SF64div. cbn [SFdiv]. unfold SFdiv_core_binary.
  change (Zdigits2 (Zpos m)) with (Zpos (digits2_pos m)).
  replace (Zpos (digits2_pos m) + e - (Zpos (digits2_pos m) + e))%Z with 0%Z by lia.
  replace (e - e)%Z with 0%Z by lia.
  change (Z.min (SpecFloat.fexp prec emax 0) 0) with (-53)%Z.
  change (0 - -53)%Z with 53%Z. cbv beta iota zeta.
  rewrite div_eucl_pair, Z.shiftl_mul_pow2 by lia.
  rewrite Z.mul_comm, Z.div_mul, Z.mod_mul by lia.
  replace (xorb s s) with false by now destruct s.
  destruct (Zpos m) eqn:E; try discriminate.
  unfold new_location. destruct (Z.even (Zpos p)); reflexivity.
Qed.

(** ** Indexing *)

Lemma arange_nth_error N k :
  (0 <= k < N)%Z -> nth_error (arange N) (Z.to_nat k) = Some k.
Proof.
  intros H. unfold arange. rewrite nth_error_map, nth_error_seq.
  destruct (Nat.ltb_spec (Z.to_nat k) (Z.to_nat N)); [| lia].
  cbn. f_equal. lia.
Qed.

Lemma map_arange_nth_error {B} (g : Z -> B) N k :
  (0 <= k < N)%Z -> nth_error (map g (arange N)) (Z.to_nat k) = Some (g k).
Proof. intros H. now rewrite nth_error_map, arange_nth_error. Qed.

(** A sequence computed index by index from a function that takes the same
    value at [a] and [N - 1 - a] reads the same in both directions. *)
Lemma map_arange_palindrome {B} (g : Z -> B) N :
  (forall a b, (0 <= a)%Z -> (0 <= b)%Z -> (a + b = N - 1)%Z -> g a = g b) ->
  rev (map g (arange N)) = map g (arange N).
Proof.
  intros H. apply nth_error_ext. intros i.
  rewrite nth_error_rev, length_map, arange_length.
  destruct (Nat.ltb_spec i (Z.to_nat N)) as [Hi | Hi].
  - replace (Z.to_nat N - S i)%nat with (Z.to_nat (N - 1 - Z.of_nat i)) by lia.
    rewrite <- (Nat2Z.id i) at 2.
    rewrite !map_arange_nth_error by lia. f_equal. apply H; lia.
  - symmetry. apply nth_error_None. rewrite length_map, arange_length. lia.
Qed.

Lemma setmask_map {A} (f : A -> float) (m : A -> bool) v l :
  setmask (map f l) (map m l) v = map (fun k => if m k then v else f k) l.
Proof. induction l as [| k l IH]; [reflexivity |]. cbn. now rewrite IH. Qed.

Lemma setmask_values_map {A} (f v : A -> float) (m : A -> bool) l :
  setmask_values (map f l) (map m l) (map v l)
  = map (fun k => if m k then v k else f k) l.
Proof. induction l as [| k l IH]; [reflexivity |]. cbn. now rewrite IH. Qed.

(** ** Mirror symmetry about the centre *)

Section MirrorFacts.
Variable np_sin np_cos np_exp : float -> float.
Variable np_power : float -> float -> float.

Local Abbreviation generate := (Window.generate np_sin np_cos np_exp np_power).

(** The four generators that read the index only through its distance to
    the centre [(N - 1 if sym else N) / 2]: the window is a function of the
    index that takes the same value at two indices whose sum is the adjusted
    length. *)
Lemma mirrored_form f N sym shape w :
  In f mirrored_families -> (N < 2 ^ 53)%Z ->
  generate f N sym shape = Ok w ->
  exists g : Z -> float,
    w = map g (arange N)
    /\ forall a b, (0 <= a)%Z -> (0 <= b)%Z ->
                   (a + b = effective N sym)%Z -> g a = g b.
Proof.
  intros Hf HN Hw.
  assert (HE : (effective N sym < 2 ^ 53)%Z)
    by (unfold effective; destruct sym; lia).
  cbn in Hf. destruct Hf as [<- | [<- | [<- | [<- | []]]]];
    cbn [Window.generate] in Hw.
  - unfold bartlett in Hw. destruct (pydiv _ _) as [scale |]; [| discriminate].
    cbn in Hw. injection Hw as <-. eexists. split; [reflexivity |].
    intros a b Ha Hb Hab. cbv beta.
    now rewrite (centered_abs a b (effective N sym)).
  - unfold exponential, half_length in Hw. injection Hw as <-.
    eexists. split; [reflexivity |].
    intros a b Ha Hb Hab. cbv beta.
    now rewrite (centered_abs a b (effective N sym)).
  - unfold gaussian, half_length in Hw. injection Hw as <-.
    eexists. split; [reflexivity |].
    intros a b Ha Hb Hab. cbv beta.
    now rewrite (centered_square_div a b (effective N sym)).
  - unfold tukey, half_length in Hw. rewrite setmask_map in Hw.
    injection Hw as <-. eexists. split; [reflexivity |].
    intros a b Ha Hb Hab. cbv beta. unfold tukey_flat, tukey_taper.
    now rewrite (centered_abs a b (effective N sym)).
Qed.

Lemma welch_periodic_form N :
  (N < 2 ^ 53)%Z ->
  exists g : Z -> float,
    welch N false = Ok (map g (arange N))
    /\ forall a b, (0 <= a)%Z -> (0 <= b)%Z ->
                   (a + b = N - 1)%Z -> g a = g b.
Proof.
  intros HN. unfold welch. eexists. split; [reflexivity |].
  intros a b Ha Hb Hab. cbv beta. unfold minus_bool.
  rewrite (centered_square_div a b (N - 1 - 0)) by lia. reflexivity.
Qed.

End MirrorFacts.

(** X1. Bartlett, Exponential, Gaussian and Tukey windows are mirror images
    about the centre [(N - 1 if sym else N) / 2]: two samples whose indices
    add up to the adjusted length are the same binary64 value, in either
    mode, for any shape parameter and any mathematical library. *)
Theorem mirror_symmetry
  (np_sin np_cos np_exp : float -> float) (np_power : float -> float -> float)
  (f : family) (N : Z) (sym : bool) (shape : float) (w : list float) (a b : Z) :
  In f mirrored_families -> (N < 2 ^ 53)%Z ->
  generate np_sin np_cos np_exp np_power f N sym shape = Ok w ->
  (0 <= a < N)%Z -> (0 <= b < N)%Z -> (a + b = effective N sym)%Z ->
  nth_error w (Z.to_nat a) = nth_error w (Z.to_nat b).
Proof.
  intros Hf HN Hw Ha Hb Hab.
  destruct (mirrored_form _ _ _ _ _ _ _ _ _ Hf HN Hw) as (g & -> & Hg).
  rewrite !map_arange_nth_error by assumption.
  f_equal. apply Hg; lia.
Qed.

Lemma mirror_symmetry_witness :
  exists w,
    generate RefLibm.sin RefLibm.cos RefLibm.exp RefLibm.power
      Gaussian 4 false 0.25 = Ok w
    /\ nth_error w (Z.to_nat 1) = nth_error w (Z.to_nat 3).
Proof.
  eexists. split; [reflexivity |].
  apply (mirror_symmetry RefLibm.sin RefLibm.cos RefLibm.exp RefLibm.power
           Gaussian 4 false 0.25 _ 1 3);
    [cbn; tauto | lia | reflexivity | lia | lia | reflexivity].
Defined.

(** X2. In symmetric mode the Bartlett, Exponential, Gaussian and Tukey
    windows are palindromes, sample for sample. *)
Theorem symmetric_mode_palindrome
  (np_sin np_cos np_exp : float -> float) (np_power : float -> float -> float)
  (f : family) (N : Z) (shape : float) (w : list float) :
  In f mirrored_families -> (N < 2 ^ 53)%Z ->
  generate np_sin np_cos np_exp np_power f N true shape = Ok w ->
  rev w = w.
Proof.
  intros Hf HN Hw.
  destruct (mirrored_form _ _ _ _ _ _ _ _ _ Hf HN Hw) as (g & -> & Hg).
  apply map_arange_palindrome. intros a b Ha Hb Hab. now apply Hg.
Qed.

Lemma symmetric_mode_palindrome_witness :
  exists w,
    generate RefLibm.sin RefLibm.cos RefLibm.exp RefLibm.power
      Tukey 5 true 0.5 = Ok w
    /\ rev w = w.
Proof.
  eexists. split; [reflexivity |].
  apply (symmetric_mode_palindrome
           RefLibm.sin RefLibm.cos RefLibm.exp RefLibm.power Tukey 5 0.5);
    [cbn; tauto | lia | reflexivity].
Defined.

(** X3. The periodic Welch window is a palindrome. *)
Theorem welch_periodic_palindrome (N : Z) :
  (N < 2 ^ 53)%Z ->
  exists w, welch N false = Ok w /\ rev w = w.
Proof.
  intros HN. destruct (welch_periodic_form N HN) as (g & Hw & Hg).
  eexists. split; [exact Hw |]. now apply map_arange_palindrome.
Qed.

Lemma welch_periodic_palindrome_witness :
  exists w, welch 3 false = Ok w /\ rev w = w.
Proof. apply (welch_periodic_palindrome 3). lia. Defined.

(** *** Exact values at the ends and at the centre *)

Lemma half_of_int_normalize (n : Z) :
  (- 2 ^ 53 < n < 2 ^ 53)%Z ->
  Prim2SF (of_int n / 2) = normalize64 (n * 2 ^ 52) (-53) false.
Proof.
  intros Hn. apply exact_normalize;
    [apply Prim2SF_valid | now apply half_of_int_exact].
Qed.

(** Half of a positive length is a positive finite value. *)
Lemma half_of_int_pos_shape (n : Z) :
  (1 <= n < 2 ^ 53)%Z ->
  exists m e, Prim2SF (of_int n / 2) = S754_finite false m e.
Proof.
  intros Hn. pose proof (half_of_int_exact n ltac:(lia)) as Hx.
  destruct (Prim2SF (of_int n / 2)) as [s | s | | s m e]; cbn [exact_at] in Hx;
    try contradiction.
  - destruct Hx as [_ Hx]. lia.
  - destruct Hx as [He Hx]. exists m, e.
    destruct s; [| reflexivity]. cbn [cond_Zopp] in Hx.
    pose proof (Z.pow_pos_nonneg 2 (e - -53) ltac:(lia) ltac:(lia)).
    nia.
Qed.

(** The last index of a symmetric Welch window is one radius away from the
    centre: [(N - 1) - (N - 2) / 2 = N / 2]. *)
Lemma centered_last (N : Z) :
  (1 <= N < 2 ^ 53)%Z ->
  of_int (N - 1) - of_int (N - 2) / 2 = of_int N / 2.
Proof.
  intros HN. apply Prim2SF_inj.
  rewrite centered_exact, half_of_int_normalize by lia. f_equal. lia.
Qed.

(** An even length halves exactly. *)
Lemma half_of_double (k : Z) :
  (- 2 ^ 52 < k < 2 ^ 52)%Z -> of_int (2 * k) / 2 = of_int k.
Proof.
  intros Hk. apply Prim2SF_inj. rewrite half_of_int_normalize by lia.
  symmetry. replace (2 * k * 2 ^ 52)%Z with (k * 2 ^ 52 * 2 ^ (-52 - -53))%Z
    by (change (2 ^ (-52 - -53))%Z with 2%Z; lia).
  apply exact_normalize; [apply Prim2SF_valid |].
  apply exact_at_lower; [lia | apply of_int_exact; lia].
Qed.

(** The centre index of an even adjusted length is at distance zero. *)
Lemma centered_zero (k : Z) :
  (- 2 ^ 52 < k < 2 ^ 52)%Z -> of_int k - of_int (2 * k) / 2 = 0.
Proof.
  intros Hk. apply Prim2SF_inj. rewrite centered_exact by lia.
  now replace ((2 * k - 2 * k) * 2 ^ 52)%Z with 0%Z by lia.
Qed.

Lemma div_self_half (n : Z) :
  (1 <= n < 2 ^ 53)%Z -> (of_int n / 2) / (of_int n / 2) = 1.
Proof.
  intros Hn. apply Prim2SF_inj. rewrite FloatAxioms.div_spec.
  destruct (half_of_int_pos_shape n Hn) as (m & e & ->).
  apply SF64div_self.
Qed.

Lemma zero_div_half (n : Z) :
  (1 <= n < 2 ^ 53)%Z -> 0 / (of_int n / 2) = 0.
Proof.
  intros Hn. apply Prim2SF_inj. rewrite FloatAxioms.div_spec.
  destruct (half_of_int_pos_shape n Hn) as (m & e & ->). reflexivity.
Qed.

Lemma abs_half (n : Z) :
  (1 <= n < 2 ^ 53)%Z -> abs (of_int n / 2) = of_int n / 2.
Proof.
  intros Hn. apply Prim2SF_inj. rewrite FloatAxioms.abs_spec.
  destruct (half_of_int_pos_shape n Hn) as (m & e & ->). reflexivity.
Qed.

Lemma half_minus_half (n : Z) :
  (1 <= n < 2 ^ 53)%Z -> of_int n / 2 - of_int n / 2 = 0.
Proof.
  intros Hn. apply Prim2SF_inj. rewrite FloatAxioms.sub_spec.
  rewrite (SF64sub_exact (-53) _ _ (n * 2 ^ 52) (n * 2 ^ 52));
    try apply Prim2SF_valid; try (apply half_of_int_exact; lia).
  now rewrite Z.sub_diag.
Qed.

(** Index zero is at distance [n / 2] from the centre. *)
Lemma centered_first (n : Z) :
  (1 <= n < 2 ^ 53)%Z -> abs (of_int 0 - of_int n / 2) = of_int n / 2.
Proof.
  intros Hn. rewrite <- (abs_half n Hn) at 2. rewrite <- (abs_opp (of_int n / 2)). f_equal.
  apply Prim2SF_inj.
  rewrite centered_exact, FloatAxioms.opp_spec, half_of_int_normalize by lia.
  rewrite <- normalize64_opp by lia. f_equal. lia.
Qed.


(** The distance of an index to the centre never overflows. *)
Lemma centered_shape (a n : Z) :
  (- 2 ^ 53 < a < 2 ^ 53)%Z -> (- 2 ^ 53 < n < 2 ^ 53)%Z ->
  match Prim2SF (of_int a - of_int n / 2) with
  | S754_zero _ | S754_finite _ _ _ => True
  | _ => False
  end.
Proof.
  intros Ha Hn. rewrite centered_exact by lia.
  assert (Hz : (- 2 ^ 107 < (2 * a - n) * 2 ^ 52 < 2 ^ 107)%Z).
  { change (2 ^ 107)%Z with (2 ^ 55 * 2 ^ 52)%Z.
    change (2 ^ 53)%Z with 9007199254740992%Z in *.
    assert (- 2 ^ 55 < 2 * a - n < 2 ^ 55)%Z by lia.
    pose proof (Z.pow_pos_nonneg 2 52 ltac:(lia) ltac:(lia)).
    split; [rewrite <- Z.mul_opp_l|]; apply Z.mul_lt_mono_pos_r; lia. }
  destruct ((2 * a - n) * 2 ^ 52)%Z as [| p | p]; cbn [binary_normalize];
    [exact I | |].
  - pose proof (round64_shape false p (-53)) as Hs. cbv zeta in Hs.
    assert (Hd : (Zpos (digits2_pos p) <= 107)%Z)
      by (apply (Zdigits2_le (Zpos p) 107); lia).
    rewrite fexp64_value in Hs.
    destruct (round64 false p (-53)); try exact I; lia.
  - pose proof (round64_shape true p (-53)) as Hs. cbv zeta in Hs.
    assert (Hd : (Zpos (digits2_pos p) <= 107)%Z)
      by (apply (Zdigits2_le (Zpos p) 107); lia).
    rewrite fexp64_value in Hs.
    destruct (round64 true p (-53)); try exact I; lia.
Qed.

(** [-0.0 * |n - c| / c] is the negative zero. *)
Lemma neg_zero_scaled (a n : Z) :
  (- 2 ^ 53 < a < 2 ^ 53)%Z -> (1 <= n < 2 ^ 53)%Z ->
  - 0 * abs (of_int a - of_int n / 2) / (of_int n / 2) = - 0.
Proof.
  intros Ha Hn. apply Prim2SF_inj.
  rewrite FloatAxioms.div_spec, FloatAxioms.mul_spec, FloatAxioms.abs_spec.
  pose proof (centered_shape a n Ha ltac:(lia)) as Hs.
  destruct (half_of_int_pos_shape n Hn) as (m & e & ->).
  destruct (Prim2SF (of_int a - of_int n / 2)); try contradiction; reflexivity.
Qed.



(** The scale [2.0 / N] of a Bartlett window of positive adjusted length is
    positive or zero, and finite. *)
Lemma two_div_of_int_shape (n : Z) :
  (1 <= n < 2 ^ 63)%Z ->
  match Prim2SF (2 / of_int n) with
  | S754_zero s | S754_finite s _ _ => s = false
  | _ => False
  end.
Proof.
  intros Hn. rewrite FloatAxioms.div_spec. change (Prim2SF 2) with SF_two.
  destruct (of_int_shape n ltac:(lia)) as [E | (m & e & E & Hd & He)].
  { pose proof (of_int_nonzero n Hn) as H0.
    rewrite FloatAxioms.eqb_spec, E in H0. discriminate. }
  rewrite E. unfold SF64div. cbn [SFdiv xorb]. unfold SFdiv_core_binary.
  change (Zdigits2 4503599627370496) with 53%Z.
  change (Zdigits2 (Zpos m)) with (Zpos (digits2_pos m)).
  rewrite Hd, fexp64_value.
  replace (Z.min (Z.max (53 + -51 - (53 + e) - 53) (-1074)) (-51 - e))
    with (-104 - e)%Z by lia.
  replace (-51 - e - (-104 - e))%Z with 53%Z by lia.
  cbv beta iota zeta. 
  change (Z.shiftl 4503599627370496 53) with (2 ^ 105)%Z.
  rewrite div_eucl_pair. 
  assert (Hm : (2 ^ 52 <= Zpos m < 2 ^ 53)%Z).
  { pose proof (Zdigits2_bounds (Zpos m) ltac:(lia)) as Hb.
    change (Zdigits2 (Zpos m)) with (Zpos (digits2_pos m)) in Hb.
    rewrite Hd in Hb. exact Hb. }
  assert (Hq : (0 <= 2 ^ 105 / Zpos m < 2 ^ 54)%Z).
  { split; [apply Z.div_pos; lia |].
    apply Z.div_lt_upper_bound; lia. }
  pose proof (Zdigits2_le _ 54 ltac:(lia) Hq) as Hdq.
  destruct Hq as [Hq _].
  generalize dependent (2 ^ 105 / Zpos m)%Z. intros q Hq Hdq.
  generalize (new_location (Zpos m) (2 ^ 105 mod Zpos m)). intros l.
  pose proof (bra64_shape false q (-104 - e) l Hq) as Hs.
  rewrite fexp64_value in Hs.
  destruct (bra64 false q (-104 - e) l) as [s | s | | s m' e'].
  - exact Hs.
  - lia.
  - exact Hs.
  - apply Hs.
Qed.

(** A Bartlett scale times an exact zero is zero. *)
Lemma scale_times_zero (n : Z) :
  (1 <= n < 2 ^ 63)%Z -> 2 / of_int n * 0 = 0.
Proof.
  intros Hn. apply Prim2SF_inj. rewrite FloatAxioms.mul_spec.
  pose proof (two_div_of_int_shape n Hn) as Hs.
  destruct (Prim2SF (2 / of_int n)); try contradiction; now subst.
Qed.

(** ** Welch *)

(** X4. The symmetric Welch window of length [N] is the periodic Welch window
    of length [N - 1] followed by a sample that is exactly [0.0]: the centre
    [(N - 2) / 2] and the radius [N / 2] put the last index one radius away
    from the centre. *)
Theorem welch_symmetric_ends_at_zero (N : Z) :
  (1 <= N < 2 ^ 53)%Z ->
  exists w', welch (N - 1) false = Ok w' /\ welch N true = Ok (w' ++ [0]).
Proof.
  intros HN. unfold welch, minus_bool. eexists. split; [reflexivity |].
  f_equal.
  assert (E : arange N = arange (N - 1) ++ [(N - 1)%Z]).
  { rewrite <- arange_succ by lia. f_equal. lia. }
  rewrite E, map_app. cbn [map].
  replace (N - 1 - 1 - 0)%Z with (N - 1 - 1)%Z by lia.
  replace (N - 1 + 1 - 0)%Z with (N + 1 - 1)%Z by lia.
  f_equal. f_equal.
  replace (N - 1 - 1)%Z with (N - 2)%Z by lia.
  replace (N + 1 - 1)%Z with N by lia.
  rewrite centered_last, div_self_half by lia. reflexivity.
Qed.

Lemma welch_symmetric_ends_at_zero_witness :
  exists w', welch (4 - 1) false = Ok w' /\ welch 4 true = Ok (w' ++ [0]).
Proof. apply (welch_symmetric_ends_at_zero 4). lia. Defined.

(** X5. When the Welch centre [(N - 1 - sym) / 2] is an index, the sample
    there is exactly [1.0]. *)
Theorem welch_centre_is_one (N : Z) (sym : bool) (c : Z) (w : list float) :
  (0 <= c)%Z -> (minus_bool (N - 1) sym = 2 * c)%Z -> (N < 2 ^ 52)%Z ->
  welch N sym = Ok w ->
  nth_error w (Z.to_nat c) = Some 1.
Proof.
  intros Hc Hm HN Hw. unfold welch in Hw. injection Hw as <-.
  assert (Hr : (minus_bool (N + 1) sym = minus_bool (N - 1) sym + 2)%Z)
    by (unfold minus_bool; lia).
  assert (HcN : (c < N /\ c < 2 ^ 52)%Z)
    by (unfold minus_bool in Hm; destruct sym; lia).
  rewrite map_arange_nth_error by lia. f_equal.
  rewrite Hr, Hm, centered_zero by lia.
  rewrite zero_div_half by lia. reflexivity.
Qed.

Lemma welch_centre_is_one_witness :
  exists w, welch 5 false = Ok w /\ nth_error w (Z.to_nat 2) = Some 1.
Proof.
  eexists. split; [reflexivity |].
  apply (welch_centre_is_one 5 false 2); [lia | reflexivity | lia | reflexivity].
Defined.

(** ** Bartlett *)

(** X6. A Bartlett window of positive adjusted length starts at exactly
    [0.0]; in symmetric mode it ends there too. *)
Theorem bartlett_ends_at_zero (N : Z) (sym : bool) :
  (1 <= effective N sym)%Z -> (N < 2 ^ 53)%Z ->
  exists w,
    bartlett N sym = Ok w
    /\ nth_error w 0 = Some 0
    /\ (sym = true -> nth_error w (Z.to_nat (N - 1)) = Some 0).
Proof.
  intros HE HN.
  assert (HEN : (effective N sym <= N)%Z) by (unfold effective; destruct sym; lia).
  unfold bartlett, pydiv. rewrite of_int_nonzero by lia. cbn [bind].
  eexists. split; [reflexivity |].
  assert (H0 : 2 / of_int (effective N sym)
               * (of_int (effective N sym) / 2
                  - abs (of_int 0 - of_int (effective N sym) / 2)) = 0).
  { rewrite centered_first, half_minus_half by lia.
    apply scale_times_zero. lia. }
  split.
  - change 0%nat with (Z.to_nat 0).
    rewrite map_arange_nth_error by lia. now rewrite H0.
  - intros ->. unfold effective in *.
    rewrite map_arange_nth_error by lia. f_equal.
    rewrite (centered_abs 0 (N - 1) (N - 1)) by lia. exact H0.
Qed.

Lemma bartlett_ends_at_zero_witness :
  exists w,
    bartlett 5 true = Ok w
    /\ nth_error w 0 = Some 0
    /\ (true = true -> nth_error w (Z.to_nat (5 - 1)) = Some 0).
Proof. apply (bartlett_ends_at_zero 5 true); cbn; lia. Defined.

(** ** Bohman *)

(** X7. With a mathematical library for which [cos(0.0) = 1.0] and
    [sin(0.0) = 0.0], the sample of a Bohman window at the centre of an even
    adjusted length is exactly [1.0]. *)
Theorem bohman_centre_is_one
  (np_sin np_cos : float -> float) (N : Z) (sym : bool) (c : Z) (w : list float) :
  np_cos 0 = 1 -> np_sin 0 = 0 ->
  (1 <= c)%Z -> (effective N sym = 2 * c)%Z -> (N < 2 ^ 53)%Z ->
  bohman np_sin np_cos N sym = Ok w ->
  nth_error w (Z.to_nat c) = Some 1.
Proof.
  intros Hcos Hsin Hc HE HN Hw. unfold bohman in Hw. injection Hw as <-.
  assert (HcN : (c < N /\ c < 2 ^ 52)%Z)
    by (unfold effective in HE; destruct sym; lia).
  rewrite map_arange_nth_error by lia. f_equal. cbv zeta.
  rewrite HE. rewrite <- (half_of_double c) at 1 2 3 by lia.
  rewrite div_self_half by lia.
  change (abs (1 - 1)) with 0. change (Fl.pi * 0) with 0.
  rewrite Hcos, Hsin. reflexivity.
Qed.

Lemma bohman_centre_is_one_witness :
  exists w,
    bohman RefLibm.sin RefLibm.cos 4 false = Ok w
    /\ nth_error w (Z.to_nat 2) = Some 1.
Proof.
  eexists. split; [reflexivity |].
  apply (bohman_centre_is_one RefLibm.sin RefLibm.cos 4 false 2);
    [reflexivity | reflexivity | lia | reflexivity | lia | reflexivity].
Defined.

(** ** Exponential *)

Lemma map_const {A B} (v : B) (l : list A) :
  map (fun _ => v) l = repeat v (length l).
Proof. induction l as [| x l IH]; [reflexivity |]. cbn. now rewrite IH. Qed.

(** X8. With [alpha = 0.0] the exponent is [-0.0] at every sample, so with
    [exp(-0.0) = 1.0] the Exponential window of positive adjusted length is
    the Boxcar window. *)
Theorem exponential_alpha0_is_boxcar
  (np_exp : float -> float) (N : Z) (sym : bool) :
  np_exp (- 0) = 1 ->
  (1 <= effective N sym)%Z -> (N < 2 ^ 53)%Z ->
  exponential np_exp N sym 0 = boxcar N sym.
Proof.
  intros Hexp HE HN.
  assert (HEN : (effective N sym <= N)%Z) by (unfold effective; destruct sym; lia).
  unfold exponential, half_length, boxcar, ones, full.
  destruct (Z.ltb_spec N 0); [lia |]. f_equal.
  rewrite <- (arange_length N), <- map_const.
  apply map_ext_in. intros k Hk. apply arange_In in Hk.
  rewrite neg_zero_scaled by lia. exact Hexp.
Qed.

Lemma exponential_alpha0_is_boxcar_witness :
  exponential RefLibm.exp 4 true 0 = boxcar 4 true.
Proof.
  apply (exponential_alpha0_is_boxcar RefLibm.exp 4 true);
    [reflexivity | cbn; lia | lia].
Defined.

(** ** Exceptions *)

(** The conversion of an [int64] is zero for zero only. *)
Lemma of_int_eqb_zero (z : Z) :
  (- 2 ^ 63 < z < 2 ^ 63)%Z -> (of_int z =? 0) = (z =? 0)%Z.
Proof.
  intros Hz. destruct (Z.eqb_spec z 0) as [-> | Hz0]; [reflexivity |].
  destruct (Z.ltb_spec z 0) as [Hneg | Hpos].
  - rewrite FloatAxioms.eqb_spec. unfold of_int.
    destruct (Z.ltb_spec z 0); [| lia].
    rewrite FloatAxioms.opp_spec, FloatAxioms.of_uint63_spec, Uint63.of_Z_spec.
    rewrite Z.mod_small by (change wB with (2 ^ 63)%Z; lia).
    destruct (normalize64_pos_shape (- z) ltac:(lia)) as (m & e & -> & _).
    reflexivity.
  - apply of_int_nonzero. lia.
Qed.


Section ExceptionFacts.
Variable np_sin np_cos np_exp : float -> float.
Variable np_power : float -> float -> float.

Local Abbreviation generate := (Window.generate np_sin np_cos np_exp np_power).

Lemma lanczos_returns N sym :
  (1 <= N)%Z ->
  lanczos np_sin N sym
  = Ok (set_nth
          (map (fun x => np_sin x / (x + 1e-12))
             (map (fun k => Fl.pi * (of_int (2 * k) / of_int (effective N sym) - 1))
                (arange N)))
          (Z.to_nat (effective N sym / 2)) 1).
Proof.
  intros HN. unfold lanczos. apply setitem_inbounds.
  rewrite !length_map, arange_length, Z2Nat.id by lia.
  unfold effective. destruct sym;
    (split; [apply Z.div_pos; lia | apply Z.div_lt_upper_bound; lia]).
Qed.

Lemma bartlett_result N sym :
  (- 2 ^ 63 < effective N sym < 2 ^ 63)%Z ->
  bartlett N sym
  = if (effective N sym =? 0)%Z then Raise ZeroDivisionError
    else Ok (map (fun k => 2 / of_int (effective N sym)
                           * (of_int (effective N sym) / 2
                              - abs (of_int k - of_int (effective N sym) / 2)))
               (arange N)).
Proof.
  intros HE. unfold bartlett, pydiv. rewrite of_int_eqb_zero by exact HE.
  now destruct (_ =? _)%Z.
Qed.

End ExceptionFacts.

(** X9. The exceptions of the nineteen generators, for any length in the
    index type: [ValueError] from [boxcar] and [parzen] at a negative length,
    [ZeroDivisionError] from [bartlett] when the adjusted length is zero,
    [IndexError] from [lanczos] at a length of zero or less, and nothing
    else. *)
Theorem generate_raises_iff
  (np_sin np_cos np_exp : float -> float) (np_power : float -> float -> float)
  (f : family) (N : Z) (sym : bool) (shape : float) (e : exn) :
  (- 2 ^ 63 < effective N sym)%Z -> (N < 2 ^ 63)%Z ->
  generate np_sin np_cos np_exp np_power f N sym shape = Raise e
  <-> ((f = Boxcar \/ f = Parzen) /\ (N < 0)%Z /\ e = ValueError)
      \/ (f = Bartlett /\ effective N sym = 0%Z /\ e = ZeroDivisionError)
      \/ (f = Lanczos /\ (N <= 0)%Z /\ e = IndexError).
Proof.
  intros HE HN.
  assert (HE' : (effective N sym < 2 ^ 63)%Z) by (unfold effective; destruct sym; lia).
  destruct f; cbn [generate];
    try (split;
         [ unfold barthann, welch, cosine, bohman, hann, hamming, blackman,
             blackmanharris, blackmannuttall, kaiserbessel, flattop,
             exponential, gaussian, hannpoisson, tukey; discriminate
         | intros [([? | ?] & _) | [(? & _) | (? & _)]]; discriminate ]).
  - (* boxcar *)
    unfold boxcar, ones, full. destruct (Z.ltb_spec N 0) as [H | H]; split.
    + intros [= <-]. left. auto.
    + intros [(_ & _ & ->) | [(? & _) | (? & _)]]; [reflexivity | discriminate ..].
    + discriminate.
    + intros [(_ & ? & _) | [(? & _) | (? & _)]]; [lia | discriminate ..].
  - (* bartlett *)
    rewrite bartlett_result by lia.
    destruct (Z.eqb_spec (effective N sym) 0) as [H | H]; split.
    + intros [= <-]. right. left. auto.
    + intros [([? | ?] & _) | [(_ & _ & ->) | (? & _)]];
        [discriminate | discriminate | reflexivity | discriminate].
    + discriminate.
    + intros [([? | ?] & _) | [(_ & ? & _) | (? & _)]];
        [discriminate | discriminate | contradiction | discriminate].
  - (* parzen *)
    unfold parzen, zeros, full. destruct (Z.ltb_spec N 0) as [H | H]; cbn [bind]; split.
    + intros [= <-]. left. auto.
    + intros [(_ & _ & ->) | [(? & _) | (? & _)]]; [reflexivity | discriminate ..].
    + discriminate.
    + intros [(_ & ? & _) | [(? & _) | (? & _)]]; [lia | discriminate ..].
  - (* lanczos *)
    destruct (Z.leb_spec N 0) as [H | H]; split.
    + rewrite lanczos_empty_raises by exact H. intros [= <-]. right. right. auto.
    + rewrite lanczos_empty_raises by exact H.
      intros [([? | ?] & _) | [(? & _) | (_ & _ & ->)]];
        [discriminate | discriminate | discriminate | reflexivity].
    + rewrite lanczos_returns by lia. discriminate.
    + intros [([? | ?] & _) | [(? & _) | (_ & ? & _)]];
        [discriminate | discriminate | discriminate | lia].
Qed.

Lemma generate_raises_iff_witness :
  generate RefLibm.sin RefLibm.cos RefLibm.exp RefLibm.power
    Bartlett 1 true 0 = Raise ZeroDivisionError
  <-> ((Bartlett = Boxcar \/ Bartlett = Parzen) /\ (1 < 0)%Z
       /\ ZeroDivisionError = ValueError)
      \/ (Bartlett = Bartlett /\ effective 1 true = 0%Z
          /\ ZeroDivisionError = ZeroDivisionError)
      \/ (Bartlett = Lanczos /\ (1 <= 0)%Z /\ ZeroDivisionError = IndexError).
Proof.
  apply (generate_raises_iff RefLibm.sin RefLibm.cos RefLibm.exp RefLibm.power
           Bartlett 1 true 0 ZeroDivisionError); cbn; lia.
Defined.

(** X10. What a call with [N <= 0] does: [lanczos] raises, [boxcar] and
    [parzen] raise below zero, [bartlett] raises at [N = 0] in periodic
    mode, and every other call returns the empty array. *)
Theorem nonpositive_length
  (np_sin np_cos np_exp : float -> float) (np_power : float -> float -> float)
  (f : family) (N : Z) (sym : bool) (shape : float) :
  (N <= 0)%Z -> (- 2 ^ 63 < effective N sym)%Z ->
  generate np_sin np_cos np_exp np_power f N sym shape
  = match f with
    | Boxcar | Parzen => if (N <? 0)%Z then Raise ValueError else Ok []
    | Bartlett =>
        if (effective N sym =? 0)%Z then Raise ZeroDivisionError else Ok []
    | Lanczos => Raise IndexError
    | _ => Ok []
    end.
Proof.
  intros HN HE.
  assert (HE' : (effective N sym < 2 ^ 63)%Z) by (unfold effective; destruct sym; lia).
  destruct f; cbn [generate];
    try (unfold barthann, welch, cosine, bohman, hann, hamming, blackman,
           blackmanharris, blackmannuttall, kaiserbessel, flattop,
           exponential, gaussian, hannpoisson, tukey;
         rewrite (arange_nil N HN); reflexivity).
  - unfold boxcar, ones, full. destruct (Z.ltb_spec N 0); [reflexivity |].
    now replace N with 0%Z by lia.
  - rewrite bartlett_result by lia. rewrite (arange_nil N HN). reflexivity.
  - unfold parzen, zeros, full. destruct (Z.ltb_spec N 0); [reflexivity |].
    now replace N with 0%Z by lia.
  - now apply lanczos_empty_raises.
Qed.

Lemma nonpositive_length_witness :
  generate RefLibm.sin RefLibm.cos RefLibm.exp RefLibm.power Bartlett (-3) false 0
  = if (effective (-3) false =? 0)%Z then Raise ZeroDivisionError else Ok [].
Proof.
  apply (nonpositive_length RefLibm.sin RefLibm.cos RefLibm.exp RefLibm.power
           Bartlett (-3) false 0); cbn; lia.
Defined.



(** ** Parzen *)

(** X12. The two masked assignments of [parzen] never write the same sample:
    for [N >= 0] the window is the inner polynomial where [|x| < 1/2], the
    outer cubic where [|x| >= 1/2], and the initial [0.0] where neither
    comparison holds (a NaN abscissa), with [x = 2 n / (N - sym) - 1]. *)
Theorem parzen_piecewise
  (np_power : float -> float -> float) (N : Z) (sym : bool) :
  (0 <= N)%Z ->
  parzen np_power N sym
  = Ok (map (fun k =>
               let x := 2 * of_int k / of_int (minus_bool N sym) - 1 in
               if abs x <? 0.5 then 1 - 6 * square x + 6 * np_power (abs x) 3
               else if 0.5 <=? abs x then 2 * np_power (1 - abs x) 3
               else 0)
          (arange N)).
Proof.
  intros HN. unfold parzen, zeros, full, arange_float.
  destruct (Z.ltb_spec N 0); [lia |]. cbn [bind]. f_equal.
  rewrite <- (arange_length N), <- map_const.
  rewrite !map_map, !setmask_values_map.
  apply map_ext. intros k. cbv zeta.
  destruct (abs _ <? 0.5) eqn:E; [| reflexivity].
  now rewrite (ltb_not_leb _ _ E).
Qed.

Lemma parzen_piecewise_witness :
  parzen RefLibm.power 4 true
  = Ok (map (fun k =>
               let x := 2 * of_int k / of_int (minus_bool 4 true) - 1 in
               if abs x <? 0.5
               then 1 - 6 * square x + 6 * RefLibm.power (abs x) 3
               else if 0.5 <=? abs x then 2 * RefLibm.power (1 - abs x) 3
               else 0)
          (arange 4)).
Proof. apply (parzen_piecewise RefLibm.power 4 true). lia. Defined.

(** ** The first sample of the cosine-sum windows *)

Lemma zero_div_of_int (N : Z) : (1 <= N < 2 ^ 63)%Z -> 0 / of_int N = 0.
Proof.
  intros HN. apply Prim2SF_inj. rewrite FloatAxioms.div_spec.
  destruct (of_int_shape N ltac:(lia)) as [E | (m & e & -> & _)]; [| reflexivity].
  pose proof (of_int_nonzero N HN) as H0.
  rewrite FloatAxioms.eqb_spec, E in H0. discriminate.
Qed.

(** At index zero the argument of every cosine term is [0.0]. *)
Lemma harmonic_at_zero (h : float) (N : Z) :
  In h [2; 4; 6; 8] -> (1 <= N < 2 ^ 63)%Z -> harmonic h 0 N = 0.
Proof.
  intros Hh HN. unfold harmonic. cbn in Hh.
  destruct Hh as [<- | [<- | [<- | [<- | []]]]];
    [change (2 * Fl.pi * of_int 0) with 0 | change (4 * Fl.pi * of_int 0) with 0
    | change (6 * Fl.pi * of_int 0) with 0 | change (8 * Fl.pi * of_int 0) with 0];
    now apply zero_div_of_int.
Qed.

Section FirstSampleFacts.
Variable np_sin np_cos np_exp : float -> float.
Variable np_power : float -> float -> float.

Local Abbreviation generate := (Window.generate np_sin np_cos np_exp np_power).

(** The first sample of a cosine-sum window of positive adjusted length is
    the same value whatever the length and the mode: the coefficients
    combined with [cos(0.0)]. *)
Lemma first_sample_form f :
  In f cosine_term_families ->
  exists c, forall N sym shape,
    (1 <= effective N sym < 2 ^ 63)%Z ->
    exists w, generate f N sym shape = Ok (c :: w).
Proof.
  intros Hf. cbn in Hf.
  repeat (destruct Hf as [<- | Hf]; [
    eexists; intros N sym shape HE;
    assert (HN : (1 <= N)%Z) by (unfold effective in HE; destruct sym; lia);
    assert (HM : minus_bool N sym = effective N sym)
      by (unfold minus_bool, effective; destruct sym; lia);
    assert (EA : arange N = 0%Z :: map Z.succ (arange (N - 1)))
      by (unfold arange; replace (Z.to_nat N) with (S (Z.to_nat (N - 1))) by lia;
          cbn [seq map]; f_equal; rewrite <- seq_shift, !map_map;
          apply map_ext; intros; lia);
    cbn [Window.generate];
    unfold barthann, hann, hamming, blackman, blackmanharris, blackmannuttall,
      kaiserbessel, flattop;
    rewrite ?HM, EA; cbn [map];
    rewrite ?harmonic_at_zero by (cbn; tauto || exact HE);
    rewrite ?zero_div_of_int by exact HE;
    eexists; reflexivity |]).
  contradiction.
Qed.

End FirstSampleFacts.

(** X13. The first sample of a cosine-sum window (Bartlett-Hann, Hann,
    Hamming, Blackman, Blackman-Harris, Blackman-Nuttall, Kaiser-Bessel,
    Flattop) is the same binary64 value for every length and either mode,
    as long as the adjusted length is positive: at index zero the argument
    of every cosine is exactly [0.0]. *)
Theorem cosine_sum_first_sample
  (np_sin np_cos np_exp : float -> float) (np_power : float -> float -> float)
  (f : family) (N N' : Z) (sym sym' : bool) (shape shape' : float) :
  In f cosine_term_families ->
  (1 <= effective N sym < 2 ^ 63)%Z -> (1 <= effective N' sym' < 2 ^ 63)%Z ->
  exists c w w',
    generate np_sin np_cos np_exp np_power f N sym shape = Ok (c :: w)
    /\ generate np_sin np_cos np_exp np_power f N' sym' shape' = Ok (c :: w').
Proof.
  intros Hf HE HE'.
  destruct (first_sample_form np_sin np_cos np_exp np_power f Hf) as (c & Hc).
  destruct (Hc N sym shape HE) as (w & Hw).
  destruct (Hc N' sym' shape' HE') as (w' & Hw').
  exists c, w, w'. split; assumption.
Qed.

Lemma cosine_sum_first_sample_witness :
  exists c w w',
    generate RefLibm.sin RefLibm.cos RefLibm.exp RefLibm.power
      Hamming 3 true 0 = Ok (c :: w)
    /\ generate RefLibm.sin RefLibm.cos RefLibm.exp RefLibm.power
         Hamming 8 false 0 = Ok (c :: w').
Proof.
  apply (cosine_sum_first_sample
           RefLibm.sin RefLibm.cos RefLibm.exp RefLibm.power
           Hamming 3 8 true false 0 0); cbn; (tauto || lia).
Defined.

(** X14. With [cos(0.0) = 1.0] a Hann window of positive adjusted length
    starts at exactly [0.0]. *)
Theorem hann_starts_at_zero (np_cos : float -> float) (N : Z) (sym : bool) :
  np_cos 0 = 1 -> (1 <= effective N sym < 2 ^ 63)%Z ->
  exists w, hann np_cos N sym = Ok (0 :: w).
Proof.
  intros Hcos HE.
  assert (HN : (1 <= N)%Z) by (unfold effective in HE; destruct sym; lia).
  assert (EA : arange N = 0%Z :: map Z.succ (arange (N - 1))).
  { unfold arange. replace (Z.to_nat N) with (S (Z.to_nat (N - 1))) by lia.
    cbn [seq map]. f_equal. rewrite <- seq_shift, !map_map.
    apply map_ext. intros; lia. }
  unfold hann. rewrite EA. cbn [map].
  rewrite harmonic_at_zero by (cbn; tauto || exact HE).
  rewrite Hcos. eexists. reflexivity.
Qed.

Lemma hann_starts_at_zero_witness :
  exists w, hann RefLibm.cos 6 true = Ok (0 :: w).
Proof. apply (hann_starts_at_zero RefLibm.cos 6 true); [reflexivity | cbn; lia]. Defined.

(** ** Lengths *)

(** X15. Whenever a generator returns, for any [N], either mode and any shape
    parameter, it returns [max(N, 0)] samples. *)
Theorem window_length
  (np_sin np_cos np_exp : float -> float) (np_power : float -> float -> float)
  (f : family) (N : Z) (sym : bool) (shape : float) (w : list float) :
  generate np_sin np_cos np_exp np_power f N sym shape = Ok w ->
  Z.of_nat (length w) = Z.max N 0.
Proof.
  intros Hw. apply generate_length in Hw. lia.
Qed.

Lemma window_length_witness :
  exists w,
    generate RefLibm.sin RefLibm.cos RefLibm.exp RefLibm.power
      Cosine 3 false 0 = Ok w
    /\ Z.of_nat (length w) = Z.max 3 0.
Proof.
  eexists. split; [reflexivity |].
  apply (window_length RefLibm.sin RefLibm.cos RefLibm.exp RefLibm.power
           Cosine 3 false 0).
  reflexivity.
Defined.

(** X16. For a length of at least two (within the index type) every generator
    returns in either mode, whatever the shape parameter and the
    mathematical library, and the window has exactly [N] samples. *)
Theorem every_window_returns
  (np_sin np_cos np_exp : float -> float) (np_power : float -> float -> float)
  (f : family) (N : Z) (sym : bool) (shape : float) :
  (2 <= N < 2 ^ 63)%Z ->
  exists w,
    generate np_sin np_cos np_exp np_power f N sym shape = Ok w
    /\ length w = Z.to_nat N.
Proof.
  intros HN.
  destruct (generate_returns np_sin np_cos np_exp np_power f N sym shape HN)
    as (w & Hw).
  exists w. split; [exact Hw |]. now apply generate_length in Hw.
Qed.

Lemma every_window_returns_witness :
  exists w,
    generate RefLibm.sin RefLibm.cos RefLibm.exp RefLibm.power
      Bohman 6 true 0 = Ok w
    /\ length w = Z.to_nat 6.
Proof.
  apply (every_window_returns RefLibm.sin RefLibm.cos RefLibm.exp RefLibm.power
           Bohman 6 true 0).
  lia.
Defined.

(** ** [compare] with the generators of [window.py] *)

Section CompareWindows.
Import Compare.

Lemma compare_result N wt wr sym fig :
  compare N wt wr sym fig
  = match wt N sym with
    | Raise e => Raise e
    | Ok test =>
        if Nat.eqb (Z.to_nat N) (length test) then
          match wr N sym with
          | Raise e => Raise e
          | Ok reference =>
              if Nat.eqb (Z.to_nat N) (length reference) then
                Ok ((test, reference),
                    fig ++ [Line (arange N) test; Line (arange N) reference;
                            Legend ["Test"; "Reference"]%string;
                            XLabel "$n$"; YLabel "w[n]"])
              else Raise ValueError
          end
        else Raise ValueError
    end.
Proof.
  unfold compare, andthen, lift, plt_plot. rewrite arange_length.
  destruct (wt N sym) as [test |]; [| reflexivity].
  destruct (Nat.eqb _ (length test)); [| reflexivity].
  destruct (wr N sym) as [reference |]; [| reflexivity].
  destruct (Nat.eqb _ (length reference)); [| reflexivity].
  unfold plt_legend, plt_xlabel, plt_ylabel, pure.
  now rewrite <- !app_assoc.
Qed.

End CompareWindows.

(** X17. [compare] applied to any two generators of the catalog, at a length
    of at least two, returns their two windows, each of [N] samples, and
    draws both against the sample indices [0 .. N-1]. *)
Theorem compare_catalog_windows
  (np_sin np_cos np_exp : float -> float) (np_power : float -> float -> float)
  (f1 f2 : family) (shape1 shape2 : float) (N : Z) (sym : bool)
  (fig : Compare.figure) :
  (2 <= N < 2 ^ 63)%Z ->
  exists test reference,
    generate np_sin np_cos np_exp np_power f1 N sym shape1 = Ok test
    /\ generate np_sin np_cos np_exp np_power f2 N sym shape2 = Ok reference
    /\ length test = Z.to_nat N
    /\ length reference = Z.to_nat N
    /\ Compare.compare N
         (fun N sym => generate np_sin np_cos np_exp np_power f1 N sym shape1)
         (fun N sym => generate np_sin np_cos np_exp np_power f2 N sym shape2)
         sym fig
       = Ok ((test, reference),
             fig ++ [Compare.Line (arange N) test;
                     Compare.Line (arange N) reference;
                     Compare.Legend ["Test"; "Reference"]%string;
                     Compare.XLabel "$n$"; Compare.YLabel "w[n]"]).
Proof.
  intros HN.
  destruct (generate_returns np_sin np_cos np_exp np_power f1 N sym shape1 HN)
    as (t & Ht).
  destruct (generate_returns np_sin np_cos np_exp np_power f2 N sym shape2 HN)
    as (r & Hr).
  pose proof (generate_length _ _ _ _ _ _ _ _ _ Ht) as Lt.
  pose proof (generate_length _ _ _ _ _ _ _ _ _ Hr) as Lr.
  exists t, r. repeat split; try assumption.
  rewrite compare_result, Ht, Hr, Lt, Lr, !Nat.eqb_refl. reflexivity.
Qed.

Lemma compare_catalog_windows_witness :
  exists test reference,
    generate RefLibm.sin RefLibm.cos RefLibm.exp RefLibm.power Hann 4 true 0
    = Ok test
    /\ generate RefLibm.sin RefLibm.cos RefLibm.exp RefLibm.power Tukey 4 true 0.5
       = Ok reference
    /\ length test = Z.to_nat 4
    /\ length reference = Z.to_nat 4
    /\ Compare.compare 4
         (fun N sym =>
            generate RefLibm.sin RefLibm.cos RefLibm.exp RefLibm.power Hann N sym 0)
         (fun N sym =>
            generate RefLibm.sin RefLibm.cos RefLibm.exp RefLibm.power Tukey N sym 0.5)
         true []
       = Ok ((test, reference),
             [] ++ [Compare.Line (arange 4) test;
                    Compare.Line (arange 4) reference;
                    Compare.Legend ["Test"; "Reference"]%string;
                    Compare.XLabel "$n$"; Compare.YLabel "w[n]"]).
Proof.
  apply (compare_catalog_windows
           RefLibm.sin RefLibm.cos RefLibm.exp RefLibm.power
           Hann Tukey 0 0.5 4 true []).
  lia.
Defined.

(** X18. When [compare] raises: the exception of the test generator, or
    [ValueError] from [plt.plot] when the test sequence does not have one
    sample per index, or else the exception of the reference generator, or
    [ValueError] for a reference sequence of the wrong length; in no other
    case. *)
Theorem compare_raises_iff
  (N : Z) (windowTest windowReference : Compare.window) (sym : bool)
  (fig : Compare.figure) (e : exn) :
  Compare.compare N windowTest windowReference sym fig = Raise e
  <-> windowTest N sym = Raise e
      \/ (exists test,
            windowTest N sym = Ok test
            /\ ((length test <> Z.to_nat N /\ e = ValueError)
                \/ (length test = Z.to_nat N
                    /\ (windowReference N sym = Raise e
                        \/ exists reference,
                             windowReference N sym = Ok reference
                             /\ length reference <> Z.to_nat N
                             /\ e = ValueError)))).
Proof.
  rewrite compare_result.
  destruct (windowTest N sym) as [test | e1].
  - destruct (Nat.eqb_spec (Z.to_nat N) (length test)) as [Lt | Lt].
    + destruct (windowReference N sym) as [reference | e2].
      * destruct (Nat.eqb_spec (Z.to_nat N) (length reference)) as [Lr | Lr]; split.
        -- discriminate.
        -- intros [H | (t & [= <-] & [[H _] | (_ & [H | (r & [= <-] & H & _)])])];
             congruence.
        -- intros [= <-]. right. exists test. split; [reflexivity |].
           right. split; [congruence |]. right. exists reference.
           repeat split; congruence.
        -- intros [H | (t & [= <-] & [[_ ->] | (_ & [H | (r & _ & _ & ->)])])];
             congruence.
      * split.
        -- intros [= <-]. right. exists test. split; [reflexivity |].
           right. split; [congruence |]. now left.
        -- intros [H | (t & [= <-] & [[H _] | (_ & [H | (r & H & _)])])];
             congruence.
    + split.
      * intros [= <-]. right. exists test. split; [reflexivity |].
        left. split; congruence.
      * intros [H | (t & [= <-] & [[_ ->] | (H & _)])]; congruence.
  - split.
    + intros [= <-]. now left.
    + intros [H | (t & H & _)]; congruence.
Qed.

(** *** Order of exact values *)

(** Two valid non-negative values that are exact on the same grid compare
    as their integer numerators do. *)
Lemma exact_ltb (e0 : Z) (x y : spec_float) (zx zy : Z) :
  (-1074 < e0)%Z ->
  valid_binary x = true -> valid_binary y = true ->
  exact_at e0 x zx -> exact_at e0 y zy ->
  (0 <= zx < zy)%Z -> SFltb x y = true.
Proof.
  intros He0 Vx Vy Hx Hy Hz. unfold SFltb.
  destruct y as [sy | sy | | sy my ey]; cbn [exact_at] in Hy; try contradiction.
  { destruct Hy as [_ Hy]. lia. }
  destruct Hy as [Hey Hy].
  pose proof (Z.pow_pos_nonneg 2 (ey - e0) ltac:(lia) ltac:(lia)) as Hpy.
  assert (sy = false) as ->.
  { destruct sy; [| reflexivity]. cbn [cond_Zopp] in Hy. nia. }
  cbn [cond_Zopp] in Hy.
  destruct x as [sx | sx | | sx mx ex]; cbn [exact_at] in Hx; try contradiction.
  { reflexivity. }
  destruct Hx as [Hex Hx].
  pose proof (Z.pow_pos_nonneg 2 (ex - e0) ltac:(lia) ltac:(lia)) as Hpx.
  assert (sx = false) as ->.
  { destruct sx; [| reflexivity]. cbn [cond_Zopp] in Hx. nia. }
  cbn [cond_Zopp] in Hx. cbn [SFcompare].
  apply valid_finite_bounds in Vx, Vy.
  destruct Vx as (_ & _ & Dx), Vy as (_ & _ & Dy).
  specialize (Dx ltac:(lia)). specialize (Dy ltac:(lia)).
  pose proof (Zdigits2_bounds (Zpos mx) ltac:(lia)) as Bx.
  pose proof (Zdigits2_bounds (Zpos my) ltac:(lia)) as By.
  change (Zdigits2 (Zpos mx)) with (Zpos (digits2_pos mx)) in Bx.
  change (Zdigits2 (Zpos my)) with (Zpos (digits2_pos my)) in By.
  rewrite Dx in Bx. rewrite Dy in By.
  change (2 ^ (53 - 1))%Z with 4503599627370496%Z in *.
  change (2 ^ 53)%Z with 9007199254740992%Z in *.
  destruct (Z.compare_spec ex ey) as [E | E | E].
  - subst ey. change (PosDef.Pos.compare_cont Eq mx my) with (Pos.compare mx my).
    assert (Hlt : (mx < my)%positive) by nia.
    now rewrite (proj2 (Pos.compare_lt_iff mx my) Hlt).
  - reflexivity.
  - exfalso.
    assert (Hsplit : (2 ^ (ex - e0) = 2 ^ (ex - ey) * 2 ^ (ey - e0))%Z).
    { rewrite <- Z.pow_add_r by lia. f_equal. lia. }
    assert (H2 : (2 <= 2 ^ (ex - ey))%Z).
    { change 2%Z with (2 ^ 1)%Z at 1. apply Z.pow_le_mono_r; lia. }
    rewrite Hsplit in Hx.
    assert (Hge : (Zpos my * 2 ^ (ey - e0)
                   < Zpos mx * (2 ^ (ex - ey) * 2 ^ (ey - e0)))%Z).
    { rewrite Z.mul_assoc. apply Z.mul_lt_mono_pos_r; [lia |]. nia. }
    lia.
Qed.

(** The distance to the centre is half an integer. *)
Lemma centered_half (a n : Z) :
  (- 2 ^ 53 < a < 2 ^ 53)%Z -> (- 2 ^ 53 < n < 2 ^ 53)%Z ->
  (- 2 ^ 53 < 2 * a - n < 2 ^ 53)%Z ->
  of_int a - of_int n / 2 = of_int (2 * a - n) / 2.
Proof.
  intros Ha Hn Hj. apply Prim2SF_inj.
  now rewrite centered_exact, half_of_int_normalize by lia.
Qed.

(** The magnitude of the distance to the centre, as half an integer. *)
Lemma centered_abs_half (a n : Z) :
  (0 <= a <= n)%Z -> (n < 2 ^ 53)%Z ->
  abs (of_int a - of_int n / 2) = of_int (Z.abs (2 * a - n)) / 2.
Proof.
  intros Ha Hn.
  destruct (Z.leb_spec 0 (2 * a - n)) as [Hs | Hs].
  - rewrite Z.abs_eq by exact Hs. rewrite centered_half by lia.
    destruct (Z.eqb_spec (2 * a - n) 0) as [-> | Hne]; [reflexivity |].
    apply abs_half. lia.
  - rewrite Z.abs_neq by lia.
    rewrite (centered_abs (n - a) a n) by lia.
    rewrite centered_half by lia.
    replace (2 * (n - a) - n)%Z with (- (2 * a - n))%Z by lia.
    apply abs_half. lia.
Qed.

(** Inside the window the distance to the centre is below the radius. *)
Lemma centered_below_radius (a n : Z) :
  (0 < a < n)%Z -> (n < 2 ^ 53)%Z ->
  (abs (of_int a - of_int n / 2) <? of_int n / 2) = true.
Proof.
  intros Ha Hn. rewrite centered_abs_half, FloatAxioms.ltb_spec by lia.
  apply (exact_ltb (-53) _ _ (Z.abs (2 * a - n) * 2 ^ 52) (n * 2 ^ 52));
    try apply Prim2SF_valid; try (apply half_of_int_exact; lia); lia.
Qed.

(** *** Multiplying by one *)

Lemma SF64mul_one_normal s m e :
  Zpos (digits2_pos m) = 53%Z -> (-1074 <= e <= 971)%Z ->
  SF64mul SF_one (S754_finite s m e) = S754_finite s m e.
Proof.
  intros Hd He. unfold SF64mul, SFmul. rewrite bra64_core.
  rewrite Pos2Z.inj_mul, Z.mul_comm.
  change (Zpos 4503599627370496) with (2 ^ 52)%Z.
  rewrite round_core_exact by lia.
  replace (-52 + e + 52)%Z with e by lia.
  cbn [xorb]. apply round_finish_finite. lia.
Qed.

Lemma one_mul_half (n : Z) :
  (1 <= n < 2 ^ 53)%Z -> 1 * (of_int n / 2) = of_int n / 2.
Proof.
  intros Hn. apply Prim2SF_inj. rewrite FloatAxioms.mul_spec.
  change (Prim2SF 1) with SF_one.
  pose proof (Prim2SF_valid (of_int n / 2)) as Hv.
  pose proof (half_of_int_exact n ltac:(lia)) as Hx.
  destruct (half_of_int_pos_shape n Hn) as (m & e & E). rewrite E in *.
  cbn [exact_at] in Hx. destruct Hx as [He _].
  apply valid_finite_bounds in Hv. destruct Hv as (_ & He' & Hd).
  apply SF64mul_one_normal; [apply Hd |]; lia.
Qed.

Lemma zero_mul_half (n : Z) :
  (1 <= n < 2 ^ 53)%Z -> 0 * (of_int n / 2) = 0.
Proof.
  intros Hn. apply Prim2SF_inj. rewrite FloatAxioms.mul_spec.
  destruct (half_of_int_pos_shape n Hn) as (m & e & ->). reflexivity.
Qed.

Lemma half_not_below_itself (n : Z) :
  (1 <= n < 2 ^ 53)%Z -> (of_int n / 2 <? of_int n / 2) = false.
Proof.
  intros Hn. rewrite FloatAxioms.ltb_spec. unfold SFltb.
  destruct (half_of_int_pos_shape n Hn) as (m & e & ->). cbn [SFcompare].
  rewrite Z.compare_refl.
  change (PosDef.Pos.compare_cont Eq m m) with (Pos.compare m m).
  now rewrite Pos.compare_refl.
Qed.

(** ** Tukey with [alpha = 1] *)

Section TukeyOneFacts.
Variable np_cos : float -> float.

Lemma tukey_one_end (n : Z) :
  (1 <= n < 2 ^ 53)%Z ->
  (if tukey_flat (of_int n / 2) 1 0 then 1
   else tukey_taper np_cos (of_int n / 2) 1 0)
  = 0.5 * (1 + np_cos nan).
Proof.
  intros Hn. unfold tukey_flat, tukey_taper.
  rewrite one_mul_half, centered_first by exact Hn.
  rewrite half_not_below_itself, half_minus_half by exact Hn.
  change (1 - 1) with 0. rewrite zero_mul_half by exact Hn.
  reflexivity.
Qed.

Lemma tukey_one_inside (n k : Z) :
  (0 < k < n)%Z -> (n < 2 ^ 53)%Z ->
  (if tukey_flat (of_int n / 2) 1 k then 1
   else tukey_taper np_cos (of_int n / 2) 1 k)
  = 1.
Proof.
  intros Hk Hn. unfold tukey_flat.
  rewrite one_mul_half by lia.
  now rewrite centered_below_radius by lia.
Qed.

End TukeyOneFacts.

(** X19. With [alpha = 1] the taper formula divides by [(1 - alpha) N = 0.0].
    Every sample strictly between index zero and the adjusted length lies in
    the flat region and is exactly [1.0]; the sample at index zero, and the
    last one in symmetric mode, is [0.5 (1 + cos(0.0 / 0.0))], the taper
    evaluated at a NaN. *)
Theorem tukey_alpha1 (np_cos : float -> float) (N : Z) (sym : bool) :
  (1 <= effective N sym)%Z -> (N < 2 ^ 53)%Z ->
  exists w,
    tukey np_cos N sym 1 = Ok w
    /\ nth_error w 0 = Some (0.5 * (1 + np_cos nan))
    /\ (forall k, (0 < k < effective N sym)%Z ->
          nth_error w (Z.to_nat k) = Some 1)
    /\ (sym = true ->
          nth_error w (Z.to_nat (N - 1)) = Some (0.5 * (1 + np_cos nan))).
Proof.
  intros HE HN.
  assert (HEN : (effective N sym <= N)%Z) by (unfold effective; destruct sym; lia).
  unfold tukey, half_length. rewrite setmask_map.
  eexists. split; [reflexivity |]. split; [| split].
  - change 0%nat with (Z.to_nat 0). rewrite map_arange_nth_error by lia.
    f_equal. apply tukey_one_end. lia.
  - intros k Hk. rewrite map_arange_nth_error by lia.
    f_equal. apply tukey_one_inside; lia.
  - intros ->. unfold effective in *. rewrite map_arange_nth_error by lia.
    f_equal. rewrite <- (tukey_one_end np_cos (N - 1)) by lia.
    unfold tukey_flat, tukey_taper.
    now rewrite (centered_abs 0 (N - 1) (N - 1)) by lia.
Qed.

Lemma tukey_alpha1_witness :
  exists w,
    tukey RefLibm.cos 5 true 1 = Ok w
    /\ nth_error w 0 = Some (0.5 * (1 + RefLibm.cos nan))
    /\ (forall k, (0 < k < effective 5 true)%Z ->
          nth_error w (Z.to_nat k) = Some 1)
    /\ (true = true ->
          nth_error w (Z.to_nat (5 - 1)) = Some (0.5 * (1 + RefLibm.cos nan))).
Proof. apply (tukey_alpha1 RefLibm.cos 5 true); cbn; lia. Defined.

Lemma SFcompare_refl_finite s m e :
  SFcompare (S754_finite s m e) (S754_finite s m e) = Some Eq.
Proof.
  cbn [SFcompare]. rewrite Z.compare_refl.
  change (PosDef.Pos.compare_cont Eq m m) with (Pos.compare m m).
  rewrite Pos.compare_refl. now destruct s.
Qed.

(** The converse of [exact_ltb]. *)
Lemma exact_not_ltb (e0 : Z) (x y : spec_float) (zx zy : Z) :
  (-1074 < e0)%Z ->
  valid_binary x = true -> valid_binary y = true ->
  exact_at e0 x zx -> exact_at e0 y zy ->
  (0 <= zy <= zx)%Z -> SFltb x y = false.
Proof.
  intros He0 Vx Vy Hx Hy Hz.
  destruct (Z.eqb_spec zx zy) as [E | E].
  - subst zy. rewrite (exact_normalize e0 x zx Vx Hx).
    rewrite <- (exact_normalize e0 y zx Vy Hy).
    unfold SFltb. destruct y as [s | s | | s m e]; cbn [exact_at] in Hy;
      try contradiction; [reflexivity |].
    now rewrite SFcompare_refl_finite.
  - pose proof (exact_ltb e0 y x zy zx He0 Vy Vx Hy Hx ltac:(lia)) as Hlt.
    unfold SFltb in *. rewrite (SFcompare_antisym y x).
    now destruct (SFcompare y x) as [[| |] |].
Qed.

(** Half the radius is exact. *)
Lemma half_radius_exact (n : Z) :
  (1 <= n < 2 ^ 53)%Z ->
  exact_at (-54) (Prim2SF (0.5 * (of_int n / 2))) (n * 2 ^ 52).
Proof.
  intros Hn. rewrite FloatAxioms.mul_spec. change (Prim2SF 0.5) with SF_half.
  pose proof (Prim2SF_valid (of_int n / 2)) as Hv.
  pose proof (half_of_int_exact n ltac:(lia)) as Hx.
  destruct (half_of_int_pos_shape n Hn) as (m & e & E). rewrite E in *.
  cbn [exact_at cond_Zopp] in Hx. destruct Hx as [He Hx].
  apply valid_finite_bounds in Hv. destruct Hv as (_ & He' & Hd).
  rewrite SF64mul_half_normal by (try apply Hd; lia).
  cbn [exact_at cond_Zopp]. split; [lia |].
  rewrite Hx. do 2 f_equal. lia.
Qed.

(** The flat region of the default Tukey window: the indices closer to the
    centre than a quarter of the adjusted length. *)
Lemma tukey_half_flat (n k : Z) :
  (1 <= n < 2 ^ 53)%Z -> (0 <= k <= n)%Z ->
  tukey_flat (of_int n / 2) 0.5 k = (2 * Z.abs (2 * k - n) <? n)%Z.
Proof.
  intros Hn Hk. unfold tukey_flat.
  rewrite centered_abs_half, FloatAxioms.ltb_spec by lia.
  assert (Hx : exact_at (-54) (Prim2SF (of_int (Z.abs (2 * k - n)) / 2))
                 (Z.abs (2 * k - n) * 2 ^ 52 * 2 ^ (-53 - -54))).
  { apply exact_at_lower; [lia | apply half_of_int_exact; lia]. }
  change (2 ^ (-53 - -54))%Z with 2%Z in Hx.
  pose proof (half_radius_exact n Hn) as Hy.
  destruct (Z.ltb_spec (2 * Z.abs (2 * k - n)) n) as [H | H].
  - eapply exact_ltb; try apply Prim2SF_valid; try eassumption; lia.
  - eapply exact_not_ltb; try apply Prim2SF_valid; try eassumption; lia.
Qed.

(** X20. The default Tukey window ([alpha = 0.5]) of positive adjusted length
    [N']: the sample at index [n] is exactly [1.0] when
    [2 |2 n - N'| < N'], that is when [n] is closer to the centre than a
    quarter of the adjusted length, and the taper formula otherwise. *)
Theorem tukey_default_flat_region (np_cos : float -> float) (N : Z) (sym : bool) :
  (1 <= effective N sym)%Z -> (N < 2 ^ 53)%Z ->
  tukey np_cos N sym 0.5
  = Ok (map (fun k =>
               if (2 * Z.abs (2 * k - effective N sym) <? effective N sym)%Z
               then 1
               else tukey_taper np_cos (half_length N sym) 0.5 k)
          (arange N)).
Proof.
  intros HE HN.
  assert (HEN : (N - 1 <= effective N sym <= N)%Z)
    by (unfold effective; destruct sym; lia).
  unfold tukey. rewrite setmask_map. f_equal.
  apply map_ext_in. intros k Hk. apply arange_In in Hk.
  unfold half_length. now rewrite tukey_half_flat by lia.
Qed.

Lemma tukey_default_flat_region_witness :
  tukey RefLibm.cos 9 true 0.5
  = Ok (map (fun k =>
               if (2 * Z.abs (2 * k - effective 9 true) <? effective 9 true)%Z
               then 1
               else tukey_taper RefLibm.cos (half_length 9 true) 0.5 k)
          (arange 9)).
Proof. apply (tukey_default_flat_region RefLibm.cos 9 true); cbn; lia. Defined.

(** ** Calls with the default arguments *)

(** X21. Called with only [N] (at least two), every generator returns except
    [kaiserbessel], whose default [sym=None] makes [N - sym] raise
    [TypeError]: it is the only generator that needs an explicit flag. *)
Theorem default_call_raises_iff
  (np_sin np_cos np_exp : float -> float) (np_power : float -> float -> float)
  (f : family) (N : Z) (e : exn) :
  (2 <= N < 2 ^ 63)%Z ->
  generate_default np_sin np_cos np_exp np_power f N = Raise e
  <-> f = Kaiserbessel /\ e = TypeError.
Proof.
  intros HN.
  destruct f; cbn [generate_default default_sym default_shape];
    try (split; [| intros [? _]; discriminate];
         match goal with
         | |- generate _ _ _ _ ?f _ ?sym ?shape = _ -> _ =>
             destruct (generate_returns np_sin np_cos np_exp np_power
                         f N sym shape HN) as (w & ->); discriminate
         end).
  split.
  - intros [= <-]. auto.
  - intros [_ ->]. reflexivity.
Qed.

Lemma default_call_raises_iff_witness :
  generate_default RefLibm.sin RefLibm.cos RefLibm.exp RefLibm.power
    Kaiserbessel 8 = Raise TypeError
  <-> Kaiserbessel = Kaiserbessel /\ TypeError = TypeError.
Proof.
  apply (default_call_raises_iff
           RefLibm.sin RefLibm.cos RefLibm.exp RefLibm.power Kaiserbessel 8).
  lia.
Defined.

(** ** A single sample in symmetric mode *)

Lemma times_zero_over_zero (a : float) : a * 0 / 0 = nan.
Proof.
  apply Prim2SF_inj. rewrite FloatAxioms.div_spec, FloatAxioms.mul_spec.
  now destruct (Prim2SF a) as [[|] | [|] | | [|] m e].
Qed.

Lemma zero_over_times_zero (a : float) : 0 / (a * 0) = nan.
Proof.
  apply Prim2SF_inj. rewrite FloatAxioms.div_spec, FloatAxioms.mul_spec.
  now destruct (Prim2SF a) as [[|] | [|] | | [|] m e].
Qed.

Lemma mul_nan_r (a : float) : a * nan = nan.
Proof.
  apply Prim2SF_inj. rewrite FloatAxioms.mul_spec.
  now destruct (Prim2SF a) as [[|] | [|] | | [|] m e].
Qed.

Lemma mul_nan_l (a : float) : nan * a = nan.
Proof.
  apply Prim2SF_inj. rewrite FloatAxioms.mul_spec. reflexivity.
Qed.

Lemma add_nan_l (a : float) : nan + a = nan.
Proof.
  apply Prim2SF_inj. rewrite FloatAxioms.add_spec. reflexivity.
Qed.

Lemma zero_not_below_times_zero (a : float) : (0 <? a * 0) = false.
Proof.
  rewrite FloatAxioms.ltb_spec, FloatAxioms.mul_spec.
  now destruct (Prim2SF a) as [[|] | [|] | | [|] m e].
Qed.

(** The argument of the Tukey cosine when the radius is zero. *)
Lemma tukey_argument_zero_radius (a b : float) :
  Fl.pi * (0 - a * 0) / (b * 0) = nan.
Proof.
  apply Prim2SF_inj.
  rewrite FloatAxioms.div_spec, !FloatAxioms.mul_spec, FloatAxioms.sub_spec,
    FloatAxioms.mul_spec.
  now destruct (Prim2SF a) as [[|] | [|] | | [|] m e],
               (Prim2SF b) as [[|] | [|] | | [|] m' e'].
Qed.

(** X22. A window of one sample in symmetric mode has adjusted length zero.
    With a library whose cosine and exponential return NaN for NaN,
    [boxcar] and [lanczos] return [[1.0]], [parzen] and [welch] return
    [[0.0]], [cosine] returns [[sin(pi * 0.5 / 1)]], [bartlett] raises
    [ZeroDivisionError], and each of the other thirteen generators returns
    [[nan]], whatever the shape parameter. *)
Theorem one_sample_symmetric_window
  (np_sin np_cos np_exp : float -> float) (np_power : float -> float -> float)
  (f : family) (shape : float) :
  np_cos nan = nan -> np_exp nan = nan ->
  generate np_sin np_cos np_exp np_power f 1 true shape
  = match f with
    | Boxcar | Lanczos => Ok [1]
    | Parzen | Welch => Ok [0]
    | Cosine => Ok [np_sin (Fl.pi * (0 + 0.5) / 1)]
    | Bartlett => Raise ZeroDivisionError
    | _ => Ok [nan]
    end.
Proof.
  intros Hcos Hexp.
  destruct f;
    try (apply (cosine_term_one_symmetric np_cos Hcos np_sin np_exp np_power);
         cbn; tauto);
    cbn [generate]; try reflexivity.
  - (* bohman *)
    unfold bohman. cbv zeta. change (arange 1) with [0%Z]. cbn [map].
    change (abs (of_int 0 / (of_int (effective 1 true) / 2) - 1)) with nan.
    change (1 - nan) with nan.
    now rewrite mul_nan_l, add_nan_l.
  - (* exponential *)
    unfold exponential, half_length. cbv zeta. change (arange 1) with [0%Z]. cbn [map].
    change (abs (of_int 0 - of_int (effective 1 true) / 2)) with 0.
    change (of_int (effective 1 true) / 2) with 0.
    now rewrite times_zero_over_zero, Hexp.
  - (* gaussian *)
    unfold gaussian, half_length. cbv zeta. change (arange 1) with [0%Z]. cbn [map].
    change (of_int 0 - of_int (effective 1 true) / 2) with 0.
    change (of_int (effective 1 true) / 2) with 0.
    rewrite zero_over_times_zero.
    change (-0.5 * square nan) with nan. now rewrite Hexp.
  - (* hannpoisson *)
    unfold hannpoisson, half_length. cbv zeta. change (arange 1) with [0%Z]. cbn [map].
    change (abs (of_int 0 - of_int (effective 1 true) / 2)) with 0.
    change (of_int (effective 1 true) / 2) with 0.
    rewrite !times_zero_over_zero, Hexp. now rewrite mul_nan_r.
  - (* tukey *)
    unfold tukey, half_length, tukey_flat, tukey_taper. cbv zeta.
    change (arange 1) with [0%Z]. cbn [map setmask].
    change (abs (of_int 0 - of_int (effective 1 true) / 2)) with 0.
    change (of_int (effective 1 true) / 2) with 0.
    rewrite zero_not_below_times_zero, tukey_argument_zero_radius.
    rewrite Hcos. reflexivity.
Qed.

Lemma one_sample_symmetric_window_witness :
  generate RefLibm.sin RefLibm.cos RefLibm.exp RefLibm.power Gaussian 1 true 0.25
  = Ok [nan].
Proof.
  apply (one_sample_symmetric_window
           RefLibm.sin RefLibm.cos RefLibm.exp RefLibm.power Gaussian 0.25);
    reflexivity.
Defined.
